(** * Mid-circuit measurement values: a shallow embedding

    The development follows [pennylane/measurements/mid_measure.py] (the
    measurement record, the symbolic measurement value, its merge, its two
    enumerations, the predicate transform of [qml.cond] and the
    post-processing scan) and [pennylane/capture/autograph/ag_primitives.py]
    (the definedness check of the converted [if] statement).

    Conventions.
    - A Python call that raises is modelled by [None] in the option monad
      (or by an explicit error constructor where the kind of error matters).
    - A generator is modelled by the list of what it yields, inside the
      option monad: [None] means that an exception escaped while it was
      consumed.
    - A Python [set] is a duplicate-free list; the order in which a set is
      iterated is left open (class [SetIteration]).
    - Processing functions are pure; [processing_fn] applied to the list
      of its positional arguments returns [None] when the call raises. *)

From Stdlib Require Import ZArith NArith String Ascii List Lia.
From stdpp Require Import base tactics option list sorting strings gmap.

Local Open Scope Z_scope.

(** ** Order on identity tokens *)

(** [str] comparison of Python is the lexicographic order on code points;
    [String.leb] is that order on byte strings. *)
Definition id_le (s1 s2 : string) : Prop := String.leb s1 s2 = true.

(** ** The measurement record, [MidMeasureMP] *)

Module MidMeasureMP.

(** The attributes set by [MidMeasureMP.__init__].  [wires] is the
    resolved [Wires] object, a sequence of wire labels. *)
Record t : Type := mk {
  wires : list Z;
  reset : bool;
  postselect : option Z;
  id : string
}.

(** Key equality.  Sets, dictionaries and [list.index] compare records
    through [__hash__] and [__eq__], which [MidMeasureMP] inherits from
    [MeasurementProcess] in [measurements.py], not part of this module;
    [__hash__] is the property [hash] below.  Records are values here:
    two records are the same key exactly when all their attributes agree,
    and records with different fingerprints are different keys whatever
    [__eq__] does. *)
#[global] Instance eq_dec : EqDecision t.
Proof. solve_decision. Defined.

(** Modelled from the spec: [MeasurementProcess.__init__], which
    [MidMeasureMP.__init__] calls before it sets [reset] and [postselect],
    is in [measurements.py], not part of this module.  The construction of
    a record raises unless the target is one location; several locations
    are excluded by the caller, and an empty [Wires] is refused here with a
    [ValueError] ([None]). *)
Definition __init__ (wires : list Z) (reset : bool) (postselect : option Z)
    (id : string) : option t :=
  match wires with
  | [] => None
  | _ :: _ => Some (mk wires reset postselect id)
  end.

(** [MidMeasureMP.hash]: the fingerprint (class name, wires, token) that
    is handed to Python's [hash], taken to be free of collisions on
    fingerprints.  Records with different fingerprints are different keys
    of every set and dictionary. *)
Definition hash (m : t) : string * list Z * string :=
  ("MidMeasureMP"%string, wires m, id m).

(** Modelled from the spec: [MeasurementProcess.map_wires] is inherited
    from [measurements.py], which is not part of this module.  The
    remapped record is a copy that keeps the identity token and the
    reset and postselect attributes and retargets the wires. *)
Definition map_wires (wire_map : Z → Z) (m : t) : t :=
  {| wires := wire_map <$> wires m;
     reset := reset m;
     postselect := postselect m;
     id := id m |}.

End MidMeasureMP.

Abbreviation MidMeasureMP := MidMeasureMP.t.

(** ** Python sets of records *)

(** [set(l)]: the elements of [l] without repetition. *)
Definition set_of_list (l : list MidMeasureMP) : list MidMeasureMP :=
  remove_dups l.

(** [s.union(t)] and [s | t]. *)
Definition set_union (s t : list MidMeasureMP) : list MidMeasureMP :=
  remove_dups (s ++ t).

(** [list(set(a).union(set(b)))]: every element of the union comes once,
    in the order of the hash table.  The program does not fix that order
    (it depends on the hash values and on the history of insertions), so
    it is left open: any listing of the union that depends on the two
    lists only. *)
Class SetIteration := {
  list_of_union : list MidMeasureMP → list MidMeasureMP → list MidMeasureMP;
  list_of_union_perm :
    ∀ a b, list_of_union a b ≡ₚ set_union (set_of_list a) (set_of_list b)
}.

(** Two possible iteration orders: the one in which [set_union] lists the
    elements, and the reverse one. *)
Definition listed_order : SetIteration :=
  {| list_of_union := λ a b, set_union (set_of_list a) (set_of_list b);
     list_of_union_perm := λ a b, reflexivity _ |}.

Definition reverse_order : SetIteration :=
  {| list_of_union := λ a b, reverse (set_union (set_of_list a) (set_of_list b));
     list_of_union_perm := λ a b, reverse_Permutation _ |}.

(** ** Sorting by identity token *)

(** [l.sort(key=lambda m: m.id)] is a stable sort; the stable sorted
    arrangement of a list is unique, and insertion at the front of the
    equal keys computes it. *)
Fixpoint insert_by_id (m : MidMeasureMP) (l : list MidMeasureMP) : list MidMeasureMP :=
  match l with
  | [] => [m]
  | y :: l' =>
      if String.leb (MidMeasureMP.id m) (MidMeasureMP.id y)
      then m :: y :: l'
      else y :: insert_by_id m l'
  end.

Definition sort_by_id (l : list MidMeasureMP) : list MidMeasureMP :=
  foldr insert_by_id [] l.

Definition le_by_id (a b : MidMeasureMP) : Prop :=
  id_le (MidMeasureMP.id a) (MidMeasureMP.id b).

(** ** The symbolic value, [MeasurementValue] *)

Record MeasurementValue (T : Type) : Type := mkMeasurementValue {
  measurements : list MidMeasureMP;
  processing_fn : list Z → option T
}.
Arguments mkMeasurementValue {T} _ _.
Arguments measurements {T} _.
Arguments processing_fn {T} _ _.

(** [f"{i:0{width}b}"] read digit by digit with [int]: the binary digits
    of [i], most significant first, at least one digit, padded with zeros
    on the left up to [width] digits. *)
Fixpoint bin_digits_pos (p : positive) : list Z :=
  match p with
  | xH => [1]
  | xO q => bin_digits_pos q ++ [0]
  | xI q => bin_digits_pos q ++ [1]
  end.

Definition bin_digits (i : N) : list Z :=
  match i with
  | N0 => [0]
  | Npos p => bin_digits_pos p
  end.

Definition format_branch (i width : nat) : list Z :=
  let digits := bin_digits (N.of_nat i) in
  replicate (width - length digits) 0 ++ digits.

(** [MeasurementValue.items]. *)
Definition items {T} (self : MeasurementValue T) : option (list (list Z * T)) :=
  let num_meas := length (measurements self) in
  mapM (λ i,
          let branch := format_branch i num_meas in
          out ← processing_fn self branch;
          Some (branch, out))
       (seq 0 (2 ^ num_meas)).

(** The dictionary [ps] of [postselected_items]:
    [{i: p for i, m in enumerate(self.measurements)
      if (p := m.postselect) is not None}], in insertion order. *)
Definition postselect_dict (ms : list MidMeasureMP) : list (nat * Z) :=
  omap (λ im, p ← MidMeasureMP.postselect im.2; Some (im.1, p))
       (zip (seq 0 (length ms)) ms).

(** [ps[j]], defined when [j in ps]. *)
Fixpoint dict_lookup (ps : list (nat * Z)) (j : nat) : option Z :=
  match ps with
  | [] => None
  | (k, p) :: ps' => if decide (k = j) then Some p else dict_lookup ps' j
  end.

(** [tuple(ps[j] if j in ps else next(non_ps_branch_iter) for j in ...)]:
    the second argument lists the indices still to visit, the third is
    what is left of the iterator; [next] on an exhausted iterator raises. *)
Fixpoint full_branch_from (ps : list (nat * Z)) (js : list nat) (non_ps_branch_iter : list Z)
    : option (list Z) :=
  match js with
  | [] => Some []
  | j :: js' =>
      match dict_lookup ps j with
      | Some p => (p ::.) <$> full_branch_from ps js' non_ps_branch_iter
      | None =>
          match non_ps_branch_iter with
          | [] => None
          | b :: rest => (b ::.) <$> full_branch_from ps js' rest
          end
      end
  end.

Definition full_branch (ps : list (nat * Z)) (num_meas : nat) (non_ps_branch : list Z)
    : option (list Z) :=
  full_branch_from ps (seq 0 num_meas) non_ps_branch.

(** [MeasurementValue.postselected_items]. *)
Definition postselected_items {T} (self : MeasurementValue T) : option (list (list Z * T)) :=
  let ps := postselect_dict (measurements self) in
  let num_non_ps := (length (measurements self) - length ps)%nat in
  if decide (num_non_ps = 0%nat) then
    out ← processing_fn self ps.*2;
    Some [([], out)]
  else
    mapM (λ i,
            let non_ps_branch := format_branch i num_non_ps in
            full_branch ← full_branch ps (length (measurements self)) non_ps_branch;
            out ← processing_fn self full_branch;
            Some (non_ps_branch, out))
         (seq 0 (2 ^ num_non_ps)).

(** [MeasurementValue.map_wires]. *)
Definition map_wires {T} (self : MeasurementValue T) (wire_map : Z → Z) : MeasurementValue T :=
  let mapped_measurements := MidMeasureMP.map_wires wire_map <$> measurements self in
  mkMeasurementValue mapped_measurements (processing_fn self).

(** [MeasurementValue._apply]. *)
Definition _apply {T U} (self : MeasurementValue T) (fn : T → option U) : MeasurementValue U :=
  mkMeasurementValue (measurements self) (λ x, processing_fn self x ≫= fn).

(** [MeasurementValue.concretize]; the dictionary of outcomes is read
    only, so it is a partial function on records (a missing key raises). *)
Definition concretize {T} (self : MeasurementValue T)
    (outcomes : MidMeasureMP → option Z) : option T :=
  values ← mapM outcomes (measurements self);
  processing_fn self values.

(** [l.index(m)]: the position of the first element equal to [m]; raises
    when there is none. *)
Definition index (l : list MidMeasureMP) (m : MidMeasureMP) : option nat :=
  fst <$> list_find (λ y, y = m) l.

(** [merged_fn], the closure built by [_merge].  The two index lists are
    computed when the generator expressions are created; [x[i]] raises
    when [x] is too short. *)
Definition merged_fn {T U} (self : MeasurementValue T) (other : MeasurementValue U)
    (merged_measurements : list MidMeasureMP) (x : list Z) : option (T * U) :=
  idx_1 ← mapM (index merged_measurements) (measurements self);
  idx_2 ← mapM (index merged_measurements) (measurements other);
  sub_args_1 ← mapM (λ i, x !! i) idx_1;
  out_1 ← processing_fn self sub_args_1;
  sub_args_2 ← mapM (λ i, x !! i) idx_2;
  out_2 ← processing_fn other sub_args_2;
  Some (out_1, out_2).

(** Modelled from the spec: [qml.math.logical_not] and
    [qml.math.logical_and] belong to [pennylane/math], which is not part
    of this module; on boolean outcomes they are the boolean combinators
    not and and. *)
Definition logical_not (a : bool) : option bool := Some (negb a).
Definition logical_and (a b : bool) : option bool := Some (a && b).

Section WithSetIteration.
Context `{SetIteration}.

(** [MeasurementValue._merge]. *)
Definition _merge {T U} (self : MeasurementValue T) (other : MeasurementValue U)
    : MeasurementValue (T * U) :=
  let merged_measurements :=
    sort_by_id (list_of_union (measurements self) (measurements other)) in
  mkMeasurementValue merged_measurements (merged_fn self other merged_measurements).

(** [MeasurementValue._transform_bin_op]; [other] is either a
    [MeasurementValue] or a plain value. *)
Definition _transform_bin_op {T U V} (self : MeasurementValue T)
    (base_bin : T → U → option V) (other : MeasurementValue U + U) : MeasurementValue V :=
  match other with
  | inl other => _apply (_merge self other) (λ t, base_bin t.1 t.2)
  | inr other => _apply self (λ v, base_bin v other)
  end.

(** [MeasurementValue.__invert__] and [MeasurementValue.__and__]. *)
Definition __invert__ (self : MeasurementValue bool) : MeasurementValue bool :=
  _apply self logical_not.

Definition __and__ (self : MeasurementValue bool) (other : MeasurementValue bool + bool)
    : MeasurementValue bool :=
  _transform_bin_op self logical_and other.

(** The loop of [get_mcm_predicates]: the state is the pair
    [(new_conds, false_cond)]. *)
Definition mcm_predicates_step (st : list (MeasurementValue bool) * MeasurementValue bool)
    (c : MeasurementValue bool) : list (MeasurementValue bool) * MeasurementValue bool :=
  let '(new_conds, false_cond) := st in
  (new_conds ++ [__and__ false_cond (inl c)],
   __and__ false_cond (inl (__invert__ c))).

(** [get_mcm_predicates]; [conditions[0]] raises on an empty sequence. *)
Definition get_mcm_predicates (conditions : list (MeasurementValue bool))
    : option (list (MeasurementValue bool)) :=
  match conditions with
  | [] => None
  | c0 :: rest =>
      let '(new_conds, false_cond) :=
        foldl mcm_predicates_step ([c0], __invert__ c0) rest in
      Some (new_conds ++ [false_cond])
  end.

End WithSetIteration.

(** ** Construction, [_measure_impl] *)

Inductive measure_outcome : Type :=
  | QuantumFunctionError (msg : string)
  | ValueError
  | Measured (mv : MeasurementValue Z).

(** The processing function [lambda v: v]: it takes exactly one
    argument. *)
Definition identity_fn (x : list Z) : option Z :=
  match x with
  | [v] => Some v
  | _ => None
  end.

(** [_measure_impl]; [wires] is the value of [Wires(wires)] and
    [measurement_id] the string drawn from [uuid.uuid4()]. *)
Definition _measure_impl (wires : list Z) (reset : bool) (postselect : option Z)
    (measurement_id : string) : measure_outcome :=
  if decide (1 < length wires)%nat then
    QuantumFunctionError
      "Only a single qubit can be measured in the middle of the circuit"
  else
    match MidMeasureMP.__init__ wires reset postselect measurement_id with
    | None => ValueError
    | Some mp => Measured (mkMeasurementValue [mp] identity_fn)
    end.

(** ** The post-processing scan, [find_post_processed_mcms] *)

(** An entry of [circuit.operations]: a mid-circuit measurement or any
    other operator. *)
Inductive operation : Type :=
  | MidMeasureOp (m : MidMeasureMP)
  | OtherOp (name : string).

(** The attribute [mv] of a terminal measurement: [None], one
    measurement value, or a list of them. *)
Inductive mv_attribute (T : Type) : Type :=
  | MvNone
  | MvSingle (mv : MeasurementValue T)
  | MvList (mvs : list (MeasurementValue T)).
Arguments MvNone {T}.
Arguments MvSingle {T} _.
Arguments MvList {T} _.

Module Circuit.

Record t (T : Type) : Type := mk {
  operations : list operation;
  measurements : list (mv_attribute T)
}.
Arguments mk {T} _ _.
Arguments operations {T} _.
Arguments measurements {T} _.

End Circuit.

(** The generator [op for op in circuit.operations
    if isinstance(op, MidMeasureMP) and op.postselect is not None]. *)
Definition postselected_ops (ops : list operation) : list MidMeasureMP :=
  omap (λ op,
          match op with
          | MidMeasureOp m =>
              match MidMeasureMP.postselect m with
              | Some _ => Some m
              | None => None
              end
          | OtherOp _ => None
          end) ops.

(** The body of the loop over [circuit.measurements]. *)
Definition scan_measurement {T} (post_processed_mcms : list MidMeasureMP)
    (m_mv : mv_attribute T) : list MidMeasureMP :=
  match m_mv with
  | MvList mvs =>
      foldl (λ acc mv, set_union acc (set_of_list (measurements mv)))
            post_processed_mcms mvs
  | MvSingle mv => set_union post_processed_mcms (set_of_list (measurements mv))
  | MvNone => post_processed_mcms
  end.

Definition find_post_processed_mcms {T} (circuit : Circuit.t T) : list MidMeasureMP :=
  let post_processed_mcms := set_of_list (postselected_ops (Circuit.operations circuit)) in
  foldl scan_measurement post_processed_mcms (Circuit.measurements circuit).

(** ** The definedness check of the converted [if] statement *)

Module AgPrimitives.

(** A variable of the converted function holds a value or the marker
    [Undefined] of the conversion library. *)
Inductive value : Type :=
  | Undefined (symbol_name : string)
  | Defined (v : Z).

Inductive outcome (A : Type) : Type :=
  | Returns (a : A)
  | AssertionError
  | AutoGraphError (msg : string).
Arguments Returns {A} _.
Arguments AssertionError {A}.
Arguments AutoGraphError {A} _.

Definition is_undefined (r : value) : bool :=
  match r with
  | Undefined _ => true
  | Defined _ => false
  end.

(** [f"Some branches did not define a value for variable '{v}'"]. *)
Definition undefined_message (v : string) : string :=
  ("Some branches did not define a value for variable '" ++ v ++ "'")%string.

(** The loop [for r, v in zip(results, var_names)]: the name paired with
    the first undefined result, if there is one. *)
Fixpoint first_undefined (pairs : list (value * string)) : option string :=
  match pairs with
  | [] => None
  | (r, v) :: pairs' => if is_undefined r then Some v else first_undefined pairs'
  end.

(** [assert_results]. *)
Definition assert_results (results : list value) (var_names : list string)
    : outcome (list value) :=
  if decide (length results = length var_names) then
    match first_undefined (zip results var_names) with
    | Some v => AutoGraphError (undefined_message v)
    | None => Returns results
    end
  else AssertionError.

(** Modelled from the spec: [qml.cond] is outside this module.  The
    conditional primitive runs each branch (all branches are traced) and
    returns the result of the branch designated by the predicate; an error
    raised by a branch propagates to the caller. *)
Definition cond {S A} (pred : bool) (true_branch false_branch : S → outcome (A * S))
    (st : S) : outcome (A * S) :=
  match true_branch st with
  | Returns (a1, st1) =>
      match false_branch st1 with
      | Returns (a2, st2) => Returns (if pred then a1 else a2, st2)
      | AssertionError => AssertionError
      | AutoGraphError msg => AutoGraphError msg
      end
  | AssertionError => AssertionError
  | AutoGraphError msg => AutoGraphError msg
  end.

Section IfStmt.
Context {S : Type}.
Variable get_state : S → list value.
Variable set_state : list value → S → S.

(** The two closures named [functional_cond] in [if_stmt]. *)
Definition functional_cond (init_state : list value) (branch_fn : S → S)
    (symbol_names : list string) (st : S) : outcome (list value * S) :=
  let st := set_state init_state st in
  let st := branch_fn st in
  let results := get_state st in
  match assert_results results symbol_names with
  | Returns results => Returns (results, st)
  | AssertionError => AssertionError
  | AutoGraphError msg => AutoGraphError msg
  end.

(** [if_stmt], as a transformer of the state of the converted function. *)
Definition if_stmt (pred : bool) (true_fn false_fn : S → S)
    (symbol_names : list string) (st : S) : outcome S :=
  let init_state := get_state st in
  match cond pred (functional_cond init_state true_fn symbol_names)
                  (functional_cond init_state false_fn symbol_names) st with
  | Returns (results, st) => Returns (set_state results st)
  | AssertionError => AssertionError
  | AutoGraphError msg => AutoGraphError msg
  end.

End IfStmt.

End AgPrimitives.

(** ** Further methods of [MeasurementValue] *)

(** [d[k] = v] on a dictionary kept as the list of its items in insertion
    order: the value of an existing key is replaced in place, a new key
    goes to the end. *)
Fixpoint dict_set {T} (k : list Z) (v : T) (d : list (list Z * T)) : list (list Z * T) :=
  match d with
  | [] => [(k, v)]
  | (k', v') :: d' => if decide (k' = k) then (k, v) :: d' else (k', v') :: dict_set k v d'
  end.

(** [d[k]]; a missing key raises. *)
Fixpoint dict_get {T} (d : list (list Z * T)) (k : list Z) : option T :=
  match d with
  | [] => None
  | (k', v') :: d' => if decide (k' = k) then Some v' else dict_get d' k
  end.

(** The property [MeasurementValue.branches]. *)
Definition branches {T} (self : MeasurementValue T) : option (list (list Z * T)) :=
  let num_meas := length (measurements self) in
  foldl (λ ret_dict i,
           ret_dict ← ret_dict;
           let branch := format_branch i num_meas in
           out ← processing_fn self branch;
           Some (dict_set branch out ret_dict))
        (Some []) (seq 0 (2 ^ num_meas)).

(** [MeasurementValue.__getitem__].  The format of a negative integer
    starts with the sign, on which [int] raises. *)
Definition __getitem__ {T} (self : MeasurementValue T) (i : Z) : option T :=
  if decide (i < 0) then None
  else
    let branch := format_branch (Z.to_nat i) (length (measurements self)) in
    processing_fn self branch.

(** Modelled from the spec: [qml.math.logical_or] belongs to
    [pennylane/math], which is not part of this module; on boolean
    outcomes it is the boolean combinator or. *)
Definition logical_or (a b : bool) : option bool := Some (a || b).

Section Operators.
Context `{SetIteration}.

(** The comparison and arithmetic operators, on integer outcomes. *)
Definition __eq__ (self : MeasurementValue Z) (other : MeasurementValue Z + Z)
    : MeasurementValue bool :=
  _transform_bin_op self (λ a b, Some (bool_decide (a = b))) other.

Definition __ne__ (self : MeasurementValue Z) (other : MeasurementValue Z + Z)
    : MeasurementValue bool :=
  _transform_bin_op self (λ a b, Some (bool_decide (a ≠ b))) other.

Definition __add__ (self : MeasurementValue Z) (other : MeasurementValue Z + Z)
    : MeasurementValue Z :=
  _transform_bin_op self (λ a b, Some (a + b)) other.

Definition __radd__ (self : MeasurementValue Z) (other : Z) : MeasurementValue Z :=
  _apply self (λ v, Some (other + v)).

Definition __sub__ (self : MeasurementValue Z) (other : MeasurementValue Z + Z)
    : MeasurementValue Z :=
  _transform_bin_op self (λ a b, Some (a - b)) other.

Definition __rsub__ (self : MeasurementValue Z) (other : Z) : MeasurementValue Z :=
  _apply self (λ v, Some (other - v)).

Definition __mul__ (self : MeasurementValue Z) (other : MeasurementValue Z + Z)
    : MeasurementValue Z :=
  _transform_bin_op self (λ a b, Some (a * b)) other.

Definition __lt__ (self : MeasurementValue Z) (other : MeasurementValue Z + Z)
    : MeasurementValue bool :=
  _transform_bin_op self (λ a b, Some (bool_decide (a < b))) other.

Definition __le__ (self : MeasurementValue Z) (other : MeasurementValue Z + Z)
    : MeasurementValue bool :=
  _transform_bin_op self (λ a b, Some (bool_decide (a ≤ b))) other.

Definition __gt__ (self : MeasurementValue Z) (other : MeasurementValue Z + Z)
    : MeasurementValue bool :=
  _transform_bin_op self (λ a b, Some (bool_decide (b < a))) other.

Definition __ge__ (self : MeasurementValue Z) (other : MeasurementValue Z + Z)
    : MeasurementValue bool :=
  _transform_bin_op self (λ a b, Some (bool_decide (b ≤ a))) other.

Definition __or__ (self : MeasurementValue bool) (other : MeasurementValue bool + bool)
    : MeasurementValue bool :=
  _transform_bin_op self logical_or other.

End Operators.

(** ** The attribute patcher, [Patcher] *)

Module Patcher.
Section Patcher.

(** Objects are told apart by a key; an attribute is addressed by the
    pair of its object and its name; the attributes of all objects make up
    the store that [getattr] reads and [setattr] writes. *)
Context {Obj : Type} `{Countable Obj} {V : Type}.

(** [self.backup] and [self.patch_data]. *)
Record t : Type := mk {
  backup : gmap (Obj * string) V;
  patch_data : list (Obj * string * V)
}.

(** [Patcher.__init__]. *)
Definition __init__ (patch_data : list (Obj * string * V)) : t :=
  {| backup := ∅; patch_data := patch_data |}.

(** How a method ends: normally, or with an exception that leaves the
    state as it was when it was raised. *)
Inductive outcome : Type :=
  | Done (backup : gmap (Obj * string) V) (store : gmap (Obj * string) V)
  | Raised (backup : gmap (Obj * string) V) (store : gmap (Obj * string) V).

(** The loop of [__enter__]; [getattr] raises on a missing attribute. *)
Fixpoint enter_loop (data : list (Obj * string * V))
    (backup store : gmap (Obj * string) V) : outcome :=
  match data with
  | [] => Done backup store
  | (obj, attr_name, fn) :: data' =>
      match store !! (obj, attr_name) with
      | Some old => enter_loop data' (<[(obj, attr_name) := old]> backup)
                                     (<[(obj, attr_name) := fn]> store)
      | None => Raised backup store
      end
  end.

Definition __enter__ (self : t) (store : gmap (Obj * string) V) : outcome :=
  enter_loop (patch_data self) (backup self) store.

(** The loop of [__exit__]; [self.backup[...]] raises on a missing key. *)
Fixpoint exit_loop (data : list (Obj * string * V))
    (backup store : gmap (Obj * string) V) : outcome :=
  match data with
  | [] => Done backup store
  | (obj, attr_name, _) :: data' =>
      match backup !! (obj, attr_name) with
      | Some old => exit_loop data' backup (<[(obj, attr_name) := old]> store)
      | None => Raised backup store
      end
  end.

Definition __exit__ (self : t) (store : gmap (Obj * string) V) : outcome :=
  exit_loop (patch_data self) (backup self) store.

(** The attributes that a list of patches addresses. *)
Definition keys (data : list (Obj * string * V)) : list (Obj * string) := data.*1.

End Patcher.
End Patcher.

(** ** [converted_call] *)

Section ConvertedCall.
Context {Obj : Type} `{Countable Obj} {V R : Type}.

(** The modules [ag_api] and [ag_config], the transformer and the
    conversion rules installed during the call. *)
Variable ag_api ag_config : Obj.
Variable TRANSFORMER module_allowlist : V.

(** What [fn] is: one of the wrapper functions that are passed through,
    a [QNode], or anything else. *)
Inductive callee : Type :=
  | WrapperFn
  | QNodeFn
  | OtherFn.

(** The calls that leave this module: the wrapper applied to
    [passthrough_wrapper], the copied [QNode], and [ag_converted_call].
    Each may change the attributes and may raise ([None]). *)
Variable call_wrapper call_qnode ag_converted_call :
  gmap (Obj * string) V → option R * gmap (Obj * string) V.

(** [converted_call]; [args_ok] is the truth of
    [args and callable(args[0])].  The block of the [with] statement runs
    between [__enter__] and [__exit__]; [__exit__] runs also when the block
    raises, and an exception of [__enter__] skips both. *)
Definition converted_call (fn : callee) (args_ok : bool) (store : gmap (Obj * string) V)
    : option R * gmap (Obj * string) V :=
  let patcher :=
    Patcher.__init__ [(ag_api, "_TRANSPILER"%string, TRANSFORMER);
                      (ag_config, "CONVERSION_RULES"%string, module_allowlist)] in
  match Patcher.__enter__ patcher store with
  | Patcher.Raised _ store => (None, store)
  | Patcher.Done backup store =>
      let '(result, store) :=
        match fn with
        | WrapperFn => if args_ok then call_wrapper store else (None, store)
        | QNodeFn => call_qnode store
        | OtherFn => ag_converted_call store
        end in
      match Patcher.__exit__ (Patcher.mk backup (Patcher.patch_data patcher)) store with
      | Patcher.Done _ store => (result, store)
      | Patcher.Raised _ store => (None, store)
      end
  end.

End ConvertedCall.

(** ** Inputs used in the examples *)

(** A measurement of wire 0 with token [a], its copy remapped to wire 1,
    and a measurement of wire 1 with token [b]. *)
Definition record_a : MidMeasureMP :=
  {| MidMeasureMP.wires := [0]; MidMeasureMP.reset := false;
     MidMeasureMP.postselect := None; MidMeasureMP.id := "a" |}.

Definition record_b : MidMeasureMP :=
  {| MidMeasureMP.wires := [1]; MidMeasureMP.reset := false;
     MidMeasureMP.postselect := None; MidMeasureMP.id := "b" |}.

Definition value_a : MeasurementValue Z := mkMeasurementValue [record_a] identity_fn.
Definition value_b : MeasurementValue Z := mkMeasurementValue [record_b] identity_fn.

Definition wire_0_to_1 (w : Z) : Z := if decide (w = 0) then 1 else w.

Definition value_a_remapped : MeasurementValue Z := map_wires value_a wire_0_to_1.

(** The predicates [value_a == 1] and [value_b == 1], and outcomes in
    which the first measurement gave 1 and the second 0. *)
Definition equals_one (v : Z) : option bool := Some (bool_decide (v = 1)).

Definition pred_a : MeasurementValue bool := _apply value_a equals_one.
Definition pred_b : MeasurementValue bool := _apply value_b equals_one.

Definition outcomes_1_0 (m : MidMeasureMP) : option Z :=
  if decide (m = record_a) then Some 1
  else if decide (m = record_b) then Some 0
  else None.

(** ** Notions used in the statements *)

(** The position of the first [true] in a list of truth values, or the
    length of the list when there is none: the branch that a cascade
    [if / elif / ... / else] takes. *)
Fixpoint first_true_index (bs : list bool) : nat :=
  match bs with
  | [] => 0
  | b :: bs' => if b then 0 else S (first_true_index bs')
  end.

(** The truth values of the guards of such a cascade, the [else] guard
    last, given whether an earlier predicate was already true. *)
Fixpoint cascade_flags (seen : bool) (bs : list bool) : list bool :=
  match bs with
  | [] => [negb seen]
  | b :: bs' => (negb seen && b) :: cascade_flags (seen || b) bs'
  end.

(** A vector of bits read as a binary numeral, most significant bit
    first. *)
Definition is_bit (b : Z) : Prop := b = 0 ∨ b = 1.

Definition bits_value (bs : list Z) : Z := foldl (λ acc b, 2 * acc + b) 0 bs.

(** The processing function returns a value on every vector that has one
    entry per dependency (the combining function of a symbolic value is
    total on its domain). *)
Definition total_on_domain {T} (mv : MeasurementValue T) : Prop :=
  ∀ x, length x = length (measurements mv) → is_Some (processing_fn mv x).

(** The dependencies that carry a postselection, and the free ones. *)
Definition num_postselected (ms : list MidMeasureMP) : nat :=
  length (filter (λ m, is_Some (MidMeasureMP.postselect m)) ms).

Definition num_free (ms : list MidMeasureMP) : nat :=
  length (filter (λ m, MidMeasureMP.postselect m = None) ms).

(** The entries of a full vector that sit at the free positions. *)
Definition free_part (ms : list MidMeasureMP) (full : list Z) : list Z :=
  (filter (λ mb, MidMeasureMP.postselect mb.1 = None) (zip ms full)).*2.

(** [full] is [branch] with the postselected values put back: one entry
    per dependency, the declared value at every postselected position,
    and the bits of [branch], in order, at the free positions. *)
Definition reconstructs (ms : list MidMeasureMP) (branch full : list Z) : Prop :=
  length full = length ms ∧
  (∀ j m p, ms !! j = Some m → MidMeasureMP.postselect m = Some p → full !! j = Some p) ∧
  (∀ j m, ms !! j = Some m → MidMeasureMP.postselect m = None →
          full !! j = branch !! num_free (take j ms)) ∧
  free_part ms full = branch.

(** A value without dependencies whose processing function counts its
    arguments ([lambda *x: len(x)]). *)
Definition count_args : MeasurementValue Z :=
  mkMeasurementValue [] (λ x, Some (Z.of_nat (length x))).

(** The measurement values attached to a terminal measurement. *)
Definition attached_values {T} (m_mv : mv_attribute T) : list (MeasurementValue T) :=
  match m_mv with
  | MvNone => []
  | MvSingle mv => [mv]
  | MvList mvs => mvs
  end.

(** [v] is the name, in [var_names], of the first undefined entry of
    [results]. *)
Definition names_first_undefined (results : list AgPrimitives.value)
    (var_names : list string) (v : string) : Prop :=
  ∃ k name,
    results !! k = Some (AgPrimitives.Undefined name) ∧
    var_names !! k = Some v ∧
    ∀ k' r, (k' < k)%nat → results !! k' = Some r → AgPrimitives.is_undefined r = false.

(** * Properties *)

(** ** Identity tokens and sorting *)

Lemma string_leb_trans (s1 s2 s3 : string) :
  String.leb s1 s2 = true → String.leb s2 s3 = true → String.leb s1 s3 = true.
Proof.
  unfold String.leb. revert s2 s3.
  induction s1 as [|a s1 IH]; intros [|b s2] [|c s3]; simpl; try done.
  unfold Ascii.compare.
  destruct (N.compare_spec (N_of_ascii a) (N_of_ascii b)) as [Hab|Hab|Hab];
    destruct (N.compare_spec (N_of_ascii b) (N_of_ascii c)) as [Hbc|Hbc|Hbc];
    destruct (N.compare_spec (N_of_ascii a) (N_of_ascii c)) as [Hac|Hac|Hac];
    try done; try lia.
  apply IH.
Qed.

#[local] Instance le_by_id_trans : Transitive le_by_id.
Proof. intros a b c. apply string_leb_trans. Qed.

Lemma le_by_id_total (a b : MidMeasureMP) : le_by_id a b ∨ le_by_id b a.
Proof. apply String.leb_total. Qed.

Lemma le_by_id_antisym (a b : MidMeasureMP) :
  le_by_id a b → le_by_id b a → MidMeasureMP.id a = MidMeasureMP.id b.
Proof. apply String.leb_antisym. Qed.

Lemma insert_by_id_perm (m : MidMeasureMP) (l : list MidMeasureMP) :
  insert_by_id m l ≡ₚ m :: l.
Proof.
  induction l as [|y l IH]; simpl; [done|].
  case_match; [done|]. rewrite IH. apply Permutation_swap.
Qed.

Lemma sort_by_id_perm (l : list MidMeasureMP) : sort_by_id l ≡ₚ l.
Proof.
  induction l as [|m l IH]; simpl; [done|].
  by rewrite insert_by_id_perm, IH.
Qed.

Lemma insert_by_id_sorted (m : MidMeasureMP) (l : list MidMeasureMP) :
  Sorted le_by_id l → Sorted le_by_id (insert_by_id m l).
Proof.
  induction 1 as [|y l Hl IH Hhd]; simpl.
  { repeat constructor. }
  destruct (String.leb (MidMeasureMP.id m) (MidMeasureMP.id y)) eqn:Hle.
  - constructor; [by constructor|]. by constructor.
  - constructor; [done|].
    assert (le_by_id y m) as Hym.
    { destruct (le_by_id_total y m) as [?|Hmy]; [done|].
      unfold le_by_id, id_le in Hmy. congruence. }
    destruct Hhd as [|z l' Hyz]; simpl; [by constructor|].
    case_match; by constructor.
Qed.

Lemma sort_by_id_sorted (l : list MidMeasureMP) : Sorted le_by_id (sort_by_id l).
Proof.
  induction l as [|m l IH]; simpl; [constructor|].
  by apply insert_by_id_sorted.
Qed.

(** When the identity token determines the record, the arrangement sorted
    by token does not depend on the order the list came in. *)
Lemma sort_by_id_unique (l1 l2 : list MidMeasureMP) :
  (∀ x y, x ∈ l1 → y ∈ l1 → MidMeasureMP.id x = MidMeasureMP.id y → x = y) →
  l1 ≡ₚ l2 → sort_by_id l1 = sort_by_id l2.
Proof.
  intros Hinj Hperm.
  apply (Sorted_unique_strong le_by_id); try apply sort_by_id_sorted.
  - intros x y Hx Hy Hxy Hyx.
    rewrite sort_by_id_perm in Hx. rewrite sort_by_id_perm, <-Hperm in Hy.
    eauto using le_by_id_antisym.
  - by rewrite !sort_by_id_perm.
Qed.

(** ** The merge *)

Section MergeFacts.
Context `{SetIteration}.

Lemma merge_measurements_perm {T U} (a : MeasurementValue T) (b : MeasurementValue U) :
  measurements (_merge a b) ≡ₚ remove_dups (measurements a ++ measurements b).
Proof.
  simpl. rewrite sort_by_id_perm, list_of_union_perm.
  unfold set_union, set_of_list.
  apply NoDup_Permutation; [apply NoDup_remove_dups..|].
  intros x. rewrite !elem_of_remove_dups, !elem_of_app, !elem_of_remove_dups. done.
Qed.

Lemma merge_measurements_elem_of {T U} (a : MeasurementValue T) (b : MeasurementValue U) m :
  m ∈ measurements (_merge a b) ↔ m ∈ measurements a ∨ m ∈ measurements b.
Proof.
  by rewrite merge_measurements_perm, elem_of_remove_dups, elem_of_app.
Qed.

Lemma merge_measurements_NoDup {T U} (a : MeasurementValue T) (b : MeasurementValue U) :
  NoDup (measurements (_merge a b)).
Proof. rewrite merge_measurements_perm. apply NoDup_remove_dups. Qed.

Lemma merge_measurements_sorted {T U} (a : MeasurementValue T) (b : MeasurementValue U) :
  Sorted le_by_id (measurements (_merge a b)).
Proof. apply sort_by_id_sorted. Qed.

End MergeFacts.

(** Two lists of records sorted by token, without repetition and with the
    same elements coincide as soon as the token determines the record. *)
Lemma canonical_order_unique (l1 l2 : list MidMeasureMP) :
  (∀ x y, x ∈ l1 → y ∈ l1 → MidMeasureMP.id x = MidMeasureMP.id y → x = y) →
  Sorted le_by_id l1 → Sorted le_by_id l2 → NoDup l1 → NoDup l2 →
  (∀ m, m ∈ l1 ↔ m ∈ l2) → l1 = l2.
Proof.
  intros Hinj Hs1 Hs2 Hn1 Hn2 Hel.
  apply (Sorted_unique_strong le_by_id); [|done..|by apply NoDup_Permutation].
  intros x y Hx Hy Hxy Hyx. apply Hinj; [done|by apply Hel|].
  by apply le_by_id_antisym.
Qed.

(** *** Positions in the merged list *)

Lemma index_Some (l : list MidMeasureMP) (m : MidMeasureMP) (i : nat) :
  index l m = Some i → l !! i = Some m.
Proof.
  unfold index. destruct (list_find _ l) as [[j y]|] eqn:Hfind; [|done].
  simpl. intros [= <-]. apply list_find_Some in Hfind as (Hj & -> & _). done.
Qed.

Lemma index_elem_of (l : list MidMeasureMP) (m : MidMeasureMP) :
  m ∈ l → is_Some (index l m).
Proof.
  intros Hm. unfold index.
  destruct (list_find_elem_of (λ y, y = m) l m Hm eq_refl) as [[j y] ->].
  by eexists.
Qed.

(** Reading, in a vector of outcomes aligned with [l], the positions of
    the records [ms] gives the outcomes of [ms]. *)
Lemma project_outcomes (outcomes : MidMeasureMP → option Z)
    (l ms : list MidMeasureMP) (values : list Z) :
  mapM outcomes l = Some values →
  (∀ m, m ∈ ms → m ∈ l) →
  ∃ idx, mapM (index l) ms = Some idx ∧
         mapM (λ i, values !! i) idx = mapM outcomes ms.
Proof.
  intros Hvalues. apply mapM_Some in Hvalues.
  induction ms as [|m ms IH]; intros Hsub.
  { by exists []. }
  destruct IH as (idx & Hidx & Hproj).
  { intros m' ?. apply Hsub. by right. }
  destruct (index_elem_of l m) as [i Hi]; [apply Hsub; by left|].
  exists (i :: idx). split.
  { simpl. by rewrite Hi, Hidx. }
  apply index_Some in Hi.
  destruct (Forall2_lookup_l _ _ _ _ _ Hvalues Hi) as (v & Hv & Hm).
  simpl. by rewrite Hv, Hm, Hproj.
Qed.

Lemma mapM_outcomes_None (outcomes : MidMeasureMP → option Z) (l : list MidMeasureMP) :
  mapM outcomes l = None → ∃ m, m ∈ l ∧ outcomes m = None.
Proof.
  induction l as [|m l IH]; simpl; [done|].
  destruct (outcomes m) eqn:Hm; simpl.
  - destruct (mapM outcomes l); simpl; [done|].
    intros _. destruct IH as (m' & ? & ?); [done|]. exists m'. split; [by right|done].
  - intros _. exists m. split; [by left|done].
Qed.

Lemma mapM_outcomes_elem_of_None (outcomes : MidMeasureMP → option Z)
    (l : list MidMeasureMP) (m : MidMeasureMP) :
  m ∈ l → outcomes m = None → mapM outcomes l = None.
Proof.
  intros Hm Hnone. destruct (mapM outcomes l) as [values|] eqn:Hl; [|done].
  apply mapM_Some in Hl. apply list_elem_of_lookup in Hm as [i Hi].
  destruct (Forall2_lookup_l _ _ _ _ _ Hl Hi) as (v & _ & Hv). congruence.
Qed.

Section MergeEvaluation.
Context `{SetIteration}.

(** Concretizing a merge concretizes both sides on the same outcomes. *)
Lemma concretize_merge {T U} (a : MeasurementValue T) (b : MeasurementValue U)
    (outcomes : MidMeasureMP → option Z) :
  concretize (_merge a b) outcomes =
    out_1 ← concretize a outcomes; out_2 ← concretize b outcomes; Some (out_1, out_2).
Proof.
  unfold concretize at 1.
  destruct (mapM outcomes (measurements (_merge a b))) as [values|] eqn:Hvalues.
  - destruct (project_outcomes outcomes _ (measurements a) values Hvalues)
      as (idx_1 & Hidx_1 & Hargs_1).
    { intros m ?. apply merge_measurements_elem_of. by left. }
    destruct (project_outcomes outcomes _ (measurements b) values Hvalues)
      as (idx_2 & Hidx_2 & Hargs_2).
    { intros m ?. apply merge_measurements_elem_of. by right. }
    simpl in *. unfold merged_fn, concretize.
    rewrite Hidx_1, Hidx_2. simpl. rewrite Hargs_1, Hargs_2.
    destruct (mapM outcomes (measurements a)) as [args_1|]; simpl; [|done].
    destruct (processing_fn a args_1); simpl; [|done].
    by destruct (mapM outcomes (measurements b)).
  - apply mapM_outcomes_None in Hvalues as (m & Hm & Hnone).
    apply merge_measurements_elem_of in Hm as [Hm|Hm]; unfold concretize.
    + by rewrite (mapM_outcomes_elem_of_None _ _ _ Hm Hnone).
    + rewrite (mapM_outcomes_elem_of_None _ (measurements b) _ Hm Hnone).
      simpl. by destruct (mapM outcomes (measurements a) ≫= processing_fn a).
Qed.

Lemma concretize_apply {T U} (a : MeasurementValue T) (fn : T → option U)
    (outcomes : MidMeasureMP → option Z) :
  concretize (_apply a fn) outcomes = concretize a outcomes ≫= fn.
Proof.
  unfold concretize. simpl. by destruct (mapM outcomes (measurements a)).
Qed.

End MergeEvaluation.

(** The closure [merged_fn] of the two merge orders, over one and the
    same merged list, differs by the order of the pair only. *)
Lemma merged_fn_swap {T U} (a : MeasurementValue T) (b : MeasurementValue U)
    (merged_measurements : list MidMeasureMP) (x : list Z) :
  merged_fn b a merged_measurements x = prod_swap <$> merged_fn a b merged_measurements x.
Proof.
  unfold merged_fn.
  destruct (mapM (index merged_measurements) (measurements a)) as [idx_a|],
    (mapM (index merged_measurements) (measurements b)) as [idx_b|]; simpl; try done.
  destruct (mapM (λ i, x !! i) idx_a) as [args_a|],
    (mapM (λ i, x !! i) idx_b) as [args_b|]; simpl; try done.
  - by destruct (processing_fn a args_a), (processing_fn b args_b).
  - by destruct (processing_fn a args_a).
  - by destruct (processing_fn b args_b).
Qed.

(** ** Merge: canonical order and commutation *)

(** C2, as stated, fails: the union is deduplicated on whole records, so
    a value merged with its copy on another wire has two dependencies that
    carry one and the same identity token, for either iteration order of
    the set. *)
Lemma merge_union_keeps_equal_tokens :
  MidMeasureMP.id <$> measurements (@_merge listed_order _ _ value_a value_a_remapped)
    = ["a"; "a"]%string ∧
  MidMeasureMP.id <$> measurements (@_merge reverse_order _ _ value_a value_a_remapped)
    = ["a"; "a"]%string ∧
  ¬ NoDup (MidMeasureMP.id <$>
             measurements (@_merge listed_order _ _ value_a value_a_remapped)).
Proof.
  split; [reflexivity|]. split; [reflexivity|].
  intros Hnd. vm_compute in Hnd. apply NoDup_cons in Hnd as [Hnotin _].
  apply Hnotin. by left.
Qed.

(** C2 (amended): when records of [A] and [B] that carry the same
    identity token are the same record, the dependencies of the merge are
    the union of the two dependency lists, without repetition of a token
    and sorted by token; they are the same list for [B] merged with [A],
    whatever the iteration orders of the two sets; and the two merged
    functions agree on every vector of bits up to the order of the pair. *)
Theorem merge_canonical_commutes (order_ab order_ba : SetIteration) {T U}
    (A : MeasurementValue T) (B : MeasurementValue U) :
  (∀ x y, x ∈ measurements A ++ measurements B →
          y ∈ measurements A ++ measurements B →
          MidMeasureMP.id x = MidMeasureMP.id y → x = y) →
  let merged := measurements (@_merge order_ab _ _ A B) in
  Sorted le_by_id merged ∧
  NoDup (MidMeasureMP.id <$> merged) ∧
  (∀ m, m ∈ merged ↔ m ∈ measurements A ∨ m ∈ measurements B) ∧
  measurements (@_merge order_ba _ _ B A) = merged ∧
  (∀ x, processing_fn (@_merge order_ba _ _ B A) x
        = prod_swap <$> processing_fn (@_merge order_ab _ _ A B) x).
Proof.
  intros Hinj merged.
  assert (∀ m, m ∈ merged ↔ m ∈ measurements A ∨ m ∈ measurements B) as Hel.
  { intros m. apply merge_measurements_elem_of. }
  assert (∀ x y, x ∈ merged → y ∈ merged →
                 MidMeasureMP.id x = MidMeasureMP.id y → x = y) as Hinj'.
  { intros x y Hx Hy. apply Hinj; rewrite elem_of_app; by apply Hel. }
  assert (measurements (@_merge order_ba _ _ B A) = merged) as Heq.
  { symmetry. apply canonical_order_unique; try done.
    - apply merge_measurements_sorted.
    - apply merge_measurements_sorted.
    - apply merge_measurements_NoDup.
    - apply merge_measurements_NoDup.
    - intros m. rewrite Hel, merge_measurements_elem_of. tauto. }
  split; [apply merge_measurements_sorted|].
  split; [apply NoDup_fmap_2_strong; [done|apply merge_measurements_NoDup]|].
  split; [done|]. split; [done|].
  intros x. change (processing_fn (@_merge order_ba _ _ B A) x)
    with (merged_fn B A (measurements (@_merge order_ba _ _ B A)) x).
  rewrite Heq. apply merged_fn_swap.
Qed.

Lemma merge_canonical_commutes_witness :
  measurements (@_merge reverse_order _ _ value_b value_a)
    = measurements (@_merge listed_order _ _ value_a value_b) ∧
  processing_fn (@_merge reverse_order _ _ value_b value_a) [1; 0]
    = prod_swap <$> processing_fn (@_merge listed_order _ _ value_a value_b) [1; 0].
Proof.
  assert (∀ x y, x ∈ measurements value_a ++ measurements value_b →
                 y ∈ measurements value_a ++ measurements value_b →
                 MidMeasureMP.id x = MidMeasureMP.id y → x = y) as Hinj.
  { simpl. intros x y Hx Hy.
    apply list_elem_of_In in Hx, Hy. simpl in Hx, Hy.
    destruct Hx as [<-|[<-|[]]], Hy as [<-|[<-|[]]]; simpl; congruence. }
  destruct (merge_canonical_commutes listed_order reverse_order value_a value_b Hinj)
    as (_ & _ & _ & Hmeas & Hfn).
  split; [exact Hmeas|exact (Hfn [1; 0])].
Defined.

(** Regrouping a chain of merges does not change the list of
    dependencies either. *)
Lemma merge_regrouped_measurements (order_1 order_2 order_3 order_4 : SetIteration)
    {T U V} (A : MeasurementValue T) (B : MeasurementValue U) (C : MeasurementValue V) :
  (∀ x y, x ∈ measurements A ++ measurements B ++ measurements C →
          y ∈ measurements A ++ measurements B ++ measurements C →
          MidMeasureMP.id x = MidMeasureMP.id y → x = y) →
  measurements (@_merge order_2 _ _ (@_merge order_1 _ _ A B) C)
    = measurements (@_merge order_4 _ _ (@_merge order_3 _ _ B C) A).
Proof.
  intros Hinj. apply canonical_order_unique;
    try apply merge_measurements_sorted; try apply merge_measurements_NoDup.
  - intros x y Hx Hy. apply Hinj; rewrite !elem_of_app.
    + apply merge_measurements_elem_of in Hx as [Hx|Hx]; [|tauto].
      apply merge_measurements_elem_of in Hx. tauto.
    + apply merge_measurements_elem_of in Hy as [Hy|Hy]; [|tauto].
      apply merge_measurements_elem_of in Hy. tauto.
  - intros m. rewrite !merge_measurements_elem_of. tauto.
Qed.

(** ** Merge: records are compared as records *)

Lemma map_wires_same_hash (wire_map : Z → Z) (r : MidMeasureMP) :
  MidMeasureMP.hash (MidMeasureMP.map_wires wire_map r) = MidMeasureMP.hash r
  ↔ MidMeasureMP.map_wires wire_map r = r.
Proof.
  destruct r as [w rs ps i]. unfold MidMeasureMP.hash, MidMeasureMP.map_wires. simpl.
  split; intros Heq.
  - injection Heq as Hw. by rewrite Hw.
  - injection Heq as Hw. by rewrite Hw.
Qed.

(** C3, as stated, fails: the copy of [value_a] on wire 1 keeps the token
    of the original and has another fingerprint; the merge has two
    dependencies, for either iteration order of the set. *)
Lemma merge_remapped_copy_two_dependencies :
  MidMeasureMP.id <$> measurements value_a_remapped = MidMeasureMP.id <$> measurements value_a ∧
  MidMeasureMP.hash <$> measurements value_a_remapped ≠ MidMeasureMP.hash <$> measurements value_a ∧
  length (measurements (@_merge listed_order _ _ value_a value_a_remapped)) = 2%nat ∧
  length (measurements (@_merge reverse_order _ _ value_a value_a_remapped)) = 2%nat.
Proof. repeat split; done. Qed.

(** C3 (amended): the union in [_merge] identifies records that are
    equal as records (same fingerprint of wires and token, same
    attributes); the token alone is the sort key only.  A remapped copy is
    recognized as the measurement it was copied from exactly when the
    remapping leaves its wires, hence its fingerprint, unchanged; then the
    merge of a single-record value with its copy has that one dependency.
    Otherwise it has two dependencies, the record and its copy, with one
    token. *)
Theorem merge_remapped_copy `{SetIteration} {T} (r : MidMeasureMP)
    (f : list Z → option T) (wire_map : Z → Z) :
  let mv := mkMeasurementValue [r] f in
  let copy := MidMeasureMP.map_wires wire_map r in
  let merged := measurements (_merge mv (map_wires mv wire_map)) in
  MidMeasureMP.id copy = MidMeasureMP.id r ∧
  (MidMeasureMP.hash copy = MidMeasureMP.hash r → merged = [r]) ∧
  (MidMeasureMP.hash copy ≠ MidMeasureMP.hash r →
     length merged = 2%nat ∧ r ∈ merged ∧ copy ∈ merged).
Proof.
  intros mv copy merged. split; [done|].
  assert (merged ≡ₚ remove_dups [r; copy]) as Hperm.
  { apply merge_measurements_perm. }
  split.
  - intros Hhash. apply map_wires_same_hash in Hhash. fold copy in Hhash.
    rewrite Hhash in Hperm. simpl in Hperm.
    destruct (decide_rel elem_of r [r]) as [_|Hnotin]; [|destruct Hnotin; by left].
    by apply Permutation_singleton_r in Hperm.
  - intros Hhash.
    assert (r ≠ copy) as Hne.
    { intros Heq. apply Hhash. by rewrite <-Heq. }
    simpl in Hperm.
    destruct (decide_rel elem_of r [copy]) as [Hin|_].
    { by apply list_elem_of_singleton in Hin. }
    split; [by rewrite Hperm|]. split; rewrite Hperm.
    + by left.
    + right. by left.
Qed.

Lemma merge_remapped_copy_witness :
  length (measurements (@_merge listed_order _ _ value_a value_a_remapped)) = 2%nat.
Proof.
  refine (proj1 (proj2 (proj2 (@merge_remapped_copy listed_order Z record_a
                                 identity_fn wire_0_to_1)) _)).
  vm_compute. discriminate.
Defined.

(** ** The predicates of [qml.cond] *)

Lemma cascade_flags_length (seen : bool) (bs : list bool) :
  length (cascade_flags seen bs) = S (length bs).
Proof. revert seen. induction bs as [|b bs IH]; intros seen; simpl; [done|]. by rewrite IH. Qed.

Lemma cascade_flags_seen (bs : list bool) (i : nat) (v : bool) :
  cascade_flags true bs !! i = Some v → v = false.
Proof.
  revert i. induction bs as [|b bs IH]; intros [|i]; simpl; try naive_solver.
Qed.

Lemma cascade_flags_first_true (bs : list bool) (i : nat) (v : bool) :
  cascade_flags false bs !! i = Some v → v = bool_decide (i = first_true_index bs).
Proof.
  revert i. induction bs as [|b bs IH]; intros i; simpl.
  { destruct i as [|i]; simpl; [naive_solver|done]. }
  destruct b, i as [|i]; simpl; try naive_solver.
  - intros Hi. by apply cascade_flags_seen in Hi.
  - intros Hi. apply IH in Hi as ->. apply bool_decide_ext. lia.
Qed.

Lemma first_true_index_le (bs : list bool) : (first_true_index bs ≤ length bs)%nat.
Proof. induction bs as [|[] bs IH]; simpl; lia. Qed.

Section Predicates.
Context `{SetIteration}.

Lemma concretize_invert (c : MeasurementValue bool) (outcomes : MidMeasureMP → option Z) :
  concretize (__invert__ c) outcomes = negb <$> concretize c outcomes.
Proof.
  unfold __invert__. rewrite concretize_apply. by destruct (concretize c outcomes).
Qed.

Lemma concretize_and (a c : MeasurementValue bool) (outcomes : MidMeasureMP → option Z) :
  concretize (__and__ a (inl c)) outcomes =
    x ← concretize a outcomes; y ← concretize c outcomes; Some (x && y).
Proof.
  unfold __and__, _transform_bin_op. rewrite concretize_apply, concretize_merge.
  destruct (concretize a outcomes); simpl; [|done].
  by destruct (concretize c outcomes).
Qed.

(** The invariant of the loop of [get_mcm_predicates]: the guards built
    so far evaluate to the flags of the cascade, and [false_cond] tells
    that no predicate was true so far. *)
Lemma mcm_predicates_loop (outcomes : MidMeasureMP → option Z)
    (rest new_conds : list (MeasurementValue bool)) (false_cond : MeasurementValue bool)
    (vals bs : list bool) (seen : bool) :
  Forall2 (λ q v, concretize q outcomes = Some v) new_conds vals →
  concretize false_cond outcomes = Some (negb seen) →
  Forall2 (λ p b, concretize p outcomes = Some b) rest bs →
  let st := foldl mcm_predicates_step (new_conds, false_cond) rest in
  Forall2 (λ q v, concretize q outcomes = Some v)
          (st.1 ++ [st.2]) (vals ++ cascade_flags seen bs).
Proof.
  intros Hvals Hfalse Hrest.
  revert new_conds false_cond vals seen Hvals Hfalse.
  induction Hrest as [|c b rest bs Hc Hrest IH];
    intros new_conds false_cond vals seen Hvals Hfalse.
  { simpl. apply Forall2_app; [done|]. by repeat constructor. }
  cbn [foldl cascade_flags]. unfold mcm_predicates_step at 2 4.
  replace (vals ++ (negb seen && b) :: cascade_flags (seen || b) bs)
    with ((vals ++ [negb seen && b]) ++ cascade_flags (seen || b) bs)
    by (by rewrite <-app_assoc).
  apply IH.
  - apply Forall2_app; [done|]. repeat constructor.
    by rewrite concretize_and, Hfalse, Hc.
  - rewrite concretize_and, Hfalse, concretize_invert, Hc. simpl.
    by rewrite negb_orb.
Qed.

End Predicates.

(** C1: for a non-empty sequence of predicates and outcomes on which each
    of them has a truth value, [get_mcm_predicates] returns one predicate
    more than it was given, and on these outcomes exactly one of the
    returned predicates is true: the one at the position [j] of the first
    true input predicate (the last one when none is true).  In particular
    when the first input predicate is true, the first returned predicate
    is true and all the others are false. *)
Theorem get_mcm_predicates_partition `{SetIteration}
    (conditions : list (MeasurementValue bool))
    (outcomes : MidMeasureMP → option Z) (bs : list bool) :
  conditions ≠ [] →
  Forall2 (λ p b, concretize p outcomes = Some b) conditions bs →
  ∃ new_conds j,
    get_mcm_predicates conditions = Some new_conds ∧
    length new_conds = (length conditions + 1)%nat ∧
    (j < length new_conds)%nat ∧
    (∀ i q, new_conds !! i = Some q →
            concretize q outcomes = Some (bool_decide (i = j))) ∧
    j = first_true_index bs ∧
    (head bs = Some true → j = 0%nat).
Proof.
  intros Hne Hbs. destruct Hbs as [|c0 b0 rest bs Hc0 Hrest]; [done|].
  pose proof (mcm_predicates_loop outcomes rest [c0] (__invert__ c0) [b0] bs b0) as Hloop.
  unfold get_mcm_predicates.
  destruct (foldl mcm_predicates_step ([c0], __invert__ c0) rest)
    as [new_conds false_cond] eqn:Hfold.
  simpl in Hloop.
  assert (Forall2 (λ q v, concretize q outcomes = Some v)
                  (new_conds ++ [false_cond]) (cascade_flags false (b0 :: bs))) as Hflags.
  { simpl. apply Hloop; [by repeat constructor| |done].
    rewrite concretize_invert, Hc0. done. }
  exists (new_conds ++ [false_cond]), (first_true_index (b0 :: bs)).
  pose proof (Forall2_length _ _ _ Hflags) as Hlen.
  rewrite cascade_flags_length in Hlen.
  pose proof (Forall2_length _ _ _ Hrest) as Hlen'.
  split; [done|]. split; [simpl in *; lia|].
  split; [pose proof (first_true_index_le (b0 :: bs)); simpl in *; lia|].
  split; [|split; [done|]].
  - intros i q Hq.
    destruct (Forall2_lookup_l _ _ _ _ _ Hflags Hq) as (v & Hv & Hqv).
    by rewrite Hqv, (cascade_flags_first_true _ _ _ Hv).
  - simpl. by intros [= ->].
Qed.

Lemma get_mcm_predicates_partition_witness :
  ∃ new_conds,
    get_mcm_predicates (H := listed_order) [pred_a; pred_b] = Some new_conds ∧
    length new_conds = 3%nat ∧
    ∀ i q, new_conds !! i = Some q →
           concretize q outcomes_1_0 = Some (bool_decide (i = 0%nat)).
Proof.
  destruct (@get_mcm_predicates_partition listed_order [pred_a; pred_b]
              outcomes_1_0 [true; false])
    as (new_conds & j & Hget & Hlen & _ & Hval & _ & Hj).
  - discriminate.
  - repeat constructor.
  - exists new_conds. rewrite (Hj eq_refl) in Hval. auto.
Defined.

(** ** Binary digits *)

Lemma bits_value_snoc (bs : list Z) (b : Z) :
  bits_value (bs ++ [b]) = 2 * bits_value bs + b.
Proof. unfold bits_value. by rewrite foldl_app. Qed.

Lemma bits_value_zeros (k : nat) (bs : list Z) :
  bits_value (replicate k 0 ++ bs) = bits_value bs.
Proof.
  unfold bits_value. rewrite foldl_app. f_equal.
  induction k as [|k IH]; simpl; [done|]. exact IH.
Qed.

Lemma bin_digits_pos_value (p : positive) : bits_value (bin_digits_pos p) = Z.pos p.
Proof.
  induction p as [p IH|p IH|]; simpl; [| |done];
    rewrite bits_value_snoc, IH; lia.
Qed.

Lemma bin_digits_pos_bits (p : positive) : Forall is_bit (bin_digits_pos p).
Proof.
  induction p as [p IH|p IH|]; simpl.
  - apply Forall_app. split; [done|]. apply Forall_singleton. by right.
  - apply Forall_app. split; [done|]. apply Forall_singleton. by left.
  - apply Forall_singleton. by right.
Qed.

Lemma bin_digits_pos_length (p : positive) :
  2 ^ Z.of_nat (length (bin_digits_pos p)) ≤ 2 * Z.pos p.
Proof.
  induction p as [p IH|p IH|]; simpl; [| |done];
    rewrite length_app, Nat.add_1_r, Nat2Z.inj_succ, Z.pow_succ_r by lia; lia.
Qed.

Lemma bin_digits_length (i n : nat) :
  (0 < n)%nat → (i < 2 ^ n)%nat → (length (bin_digits (N.of_nat i)) ≤ n)%nat.
Proof.
  intros Hn Hi. destruct (N.of_nat i) as [|p] eqn:Hp; simpl; [lia|].
  pose proof (bin_digits_pos_length p) as Hlen.
  assert (Z.pos p = Z.of_nat i) as Hpi by lia.
  assert (Z.of_nat i < 2 ^ Z.of_nat n) as Hi'.
  { apply Nat2Z.inj_lt in Hi. by rewrite Nat2Z.inj_pow in Hi. }
  assert (2 ^ Z.of_nat (length (bin_digits_pos p)) < 2 ^ (Z.of_nat n + 1)) as Hlt.
  { rewrite Z.pow_add_r by lia. lia. }
  apply Z.pow_lt_mono_r_iff in Hlt; lia.
Qed.

Lemma format_branch_value (i width : nat) :
  bits_value (format_branch i width) = Z.of_nat i.
Proof.
  unfold format_branch. rewrite bits_value_zeros.
  destruct (N.of_nat i) as [|p] eqn:Hp; simpl.
  - unfold bits_value. simpl. lia.
  - rewrite bin_digits_pos_value. lia.
Qed.

Lemma format_branch_bits (i width : nat) : Forall is_bit (format_branch i width).
Proof.
  unfold format_branch. apply Forall_app. split.
  - apply Forall_replicate. by left.
  - destruct (N.of_nat i); simpl; [|apply bin_digits_pos_bits].
    apply Forall_singleton. by left.
Qed.

Lemma format_branch_length (i width : nat) :
  (0 < width)%nat → (i < 2 ^ width)%nat → length (format_branch i width) = width.
Proof.
  intros Hw Hi. pose proof (bin_digits_length i width Hw Hi).
  unfold format_branch. rewrite length_app, length_replicate. lia.
Qed.

(** A vector of [n] bits is determined by its value, which is below
    [2 ^ n]. *)
Lemma bits_value_bound (bs : list Z) :
  Forall is_bit bs → 0 ≤ bits_value bs < 2 ^ Z.of_nat (length bs).
Proof.
  induction bs as [|b bs IH] using rev_ind; intros Hbits.
  { unfold bits_value. simpl. lia. }
  apply Forall_app in Hbits as [Hbs Hb]. apply (proj1 (Forall_singleton _ _)) in Hb.
  rewrite bits_value_snoc, length_app, Nat.add_1_r, Nat2Z.inj_succ, Z.pow_succ_r by lia.
  specialize (IH Hbs). unfold is_bit in Hb. lia.
Qed.

Lemma bits_value_inj (bs1 bs2 : list Z) :
  Forall is_bit bs1 → Forall is_bit bs2 → length bs1 = length bs2 →
  bits_value bs1 = bits_value bs2 → bs1 = bs2.
Proof.
  revert bs2. induction bs1 as [|b1 bs1 IH] using rev_ind;
    intros bs2 Hbits1 Hbits2 Hlen Hval.
  { destruct bs2; [done|simpl in Hlen; lia]. }
  destruct bs2 as [|b2 bs2 _] using rev_ind.
  { rewrite length_app in Hlen. simpl in Hlen. lia. }
  apply Forall_app in Hbits1 as [Hbs1 Hb1]. apply (proj1 (Forall_singleton _ _)) in Hb1.
  apply Forall_app in Hbits2 as [Hbs2 Hb2]. apply (proj1 (Forall_singleton _ _)) in Hb2.
  rewrite !length_app in Hlen. simpl in Hlen.
  rewrite !bits_value_snoc in Hval.
  assert (b1 = b2) as -> by (unfold is_bit in Hb1, Hb2; lia).
  f_equal. apply IH; [done..|lia|lia].
Qed.

(** ** Generators over [range] *)

Lemma mapM_seq_Some {A} (f : nat → option A) (n : nat) :
  (∀ i, (i < n)%nat → is_Some (f i)) →
  ∃ l, mapM f (seq 0 n) = Some l ∧ length l = n ∧
       ∀ i, (i < n)%nat → l !! i = f i.
Proof.
  intros Hf.
  assert (is_Some (mapM f (seq 0 n))) as [l Hl].
  { apply mapM_is_Some, Forall_forall. intros i Hi.
    apply elem_of_seq in Hi. apply Hf. lia. }
  exists l. split; [done|]. apply mapM_Some in Hl.
  pose proof (Forall2_length _ _ _ Hl) as Hlen. rewrite length_seq in Hlen.
  split; [done|]. intros i Hi.
  destruct (Forall2_lookup_l _ _ _ i i Hl) as (y & Hy & Hfy).
  { by apply lookup_seq_lt. }
  by rewrite Hy, Hfy.
Qed.

(** ** Full enumeration *)

Lemma items_lookup {T} (mv : MeasurementValue T) (entries : list (list Z * T))
    (i : nat) (branch : list Z) (out : T) :
  items mv = Some entries → entries !! i = Some (branch, out) →
  (i < 2 ^ length (measurements mv))%nat ∧
  branch = format_branch i (length (measurements mv)) ∧
  processing_fn mv branch = Some out.
Proof.
  intros Hitems Hi. unfold items in Hitems. apply mapM_Some in Hitems.
  destruct (Forall2_lookup_r _ _ _ _ _ Hitems Hi) as (k & Hk & Hentry).
  pose proof (lookup_lt_Some _ _ _ Hk) as Hlt. rewrite length_seq in Hlt.
  rewrite lookup_seq_lt in Hk by done. simplify_eq. simpl in Hentry.
  destruct (processing_fn mv _) as [out'|] eqn:Hout; simpl in Hentry; [|done].
  injection Hentry as <- <-. done.
Qed.

(** With at least one dependency, the enumeration counts in binary. *)
Lemma items_binary_counter {T} (mv : MeasurementValue T) :
  measurements mv ≠ [] → total_on_domain mv →
  let n := length (measurements mv) in
  ∃ entries,
    items mv = Some entries ∧ length entries = (2 ^ n)%nat ∧
    ∀ i, (i < 2 ^ n)%nat →
      ∃ branch out,
        entries !! i = Some (branch, out) ∧
        length branch = n ∧ Forall is_bit branch ∧ bits_value branch = Z.of_nat i ∧
        processing_fn mv branch = Some out.
Proof.
  intros Hne Htotal n.
  assert (0 < n)%nat as Hn.
  { subst n. destruct (measurements mv); [done|simpl; lia]. }
  destruct (mapM_seq_Some
              (λ i, let branch := format_branch i n in
                    out ← processing_fn mv branch; Some (branch, out)) (2 ^ n))
    as (entries & Hentries & Hlen & Hlookup).
  { intros i Hi. simpl.
    destruct (Htotal (format_branch i n)) as [out Hout].
    { by apply format_branch_length. }
    rewrite Hout. by eexists. }
  exists entries. split; [done|]. split; [done|]. intros i Hi.
  destruct (Htotal (format_branch i n)) as [out Hout].
  { by apply format_branch_length. }
  exists (format_branch i n), out. rewrite (Hlookup i Hi). simpl. rewrite Hout.
  split; [done|]. split; [by apply format_branch_length|].
  split; [apply format_branch_bits|]. split; [apply format_branch_value|done].
Qed.

(** Every vector of [n] bits is enumerated, at the index it denotes and
    nowhere else. *)
Lemma items_cover {T} (mv : MeasurementValue T) (entries : list (list Z * T)) (bs : list Z) :
  measurements mv ≠ [] → items mv = Some entries →
  length entries = (2 ^ length (measurements mv))%nat →
  length bs = length (measurements mv) → Forall is_bit bs →
  ∃ i, (∃ out, entries !! i = Some (bs, out)) ∧
       ∀ i' out', entries !! i' = Some (bs, out') → i' = i.
Proof.
  intros Hne Hitems Hlen Hbs Hbits.
  pose proof (bits_value_bound bs Hbits) as Hbound. rewrite Hbs in Hbound.
  assert (Z.to_nat (bits_value bs) < 2 ^ length (measurements mv))%nat as Hi.
  { apply Nat2Z.inj_lt. rewrite Nat2Z.inj_pow, Z2Nat.id; lia. }
  exists (Z.to_nat (bits_value bs)). split.
  - destruct (lookup_lt_is_Some_2 entries (Z.to_nat (bits_value bs))) as [[branch out] Hentry].
    { by rewrite Hlen. }
    exists out. rewrite Hentry. do 2 f_equal.
    destruct (items_lookup mv entries _ branch out Hitems Hentry) as (_ & -> & _).
    assert (0 < length (measurements mv))%nat
      by (destruct (measurements mv); [done|simpl; lia]).
    apply bits_value_inj; [apply format_branch_bits|done| |].
    + rewrite format_branch_length; done.
    + rewrite format_branch_value, Z2Nat.id; lia.
  - intros i' out' Hentry.
    destruct (items_lookup mv entries _ bs out' Hitems Hentry) as (_ & Heq & _).
    rewrite Heq, format_branch_value. lia.
Qed.

(** Concretizing on outcomes aligned with an enumerated assignment gives
    the output enumerated with it. *)
Lemma concretize_items {T} (mv : MeasurementValue T) (entries : list (list Z * T))
    (outcomes : MidMeasureMP → option Z) (i : nat) (branch : list Z) (out : T) :
  measurements mv ≠ [] →
  items mv = Some entries → entries !! i = Some (branch, out) →
  (∀ j m, measurements mv !! j = Some m → outcomes m = branch !! j) →
  concretize mv outcomes = Some out.
Proof.
  intros Hne Hitems Hentry Haligned.
  destruct (items_lookup mv entries i branch out Hitems Hentry) as (Hi & Hbranch & Hout).
  assert (length branch = length (measurements mv)) as Hlen.
  { rewrite Hbranch. apply format_branch_length; [|done].
    destruct (measurements mv); [done|simpl; lia]. }
  assert (mapM outcomes (measurements mv) = Some branch) as Hvalues.
  { apply mapM_Some, Forall2_same_length_lookup. split; [done|].
    intros j m b Hm Hb. by rewrite (Haligned j m Hm). }
  unfold concretize. by rewrite Hvalues.
Qed.

(** The enumerations above are stated for values with at least one
    dependency, as every value built by this module has.  On a list of
    no measurement, [f"{0:00b}"] is the string [0]: [items] yields the
    one-bit vector [0], while [postselected_items] yields the empty
    assignment. *)
Lemma items_zero_dependencies {T} (f : list Z → option T) :
  items (mkMeasurementValue [] f) = (out ← f [0]; Some [([0], out)]) ∧
  postselected_items (mkMeasurementValue [] f) = (out ← f []; Some [([], out)]).
Proof.
  split.
  - unfold items. simpl. change (format_branch 0 0) with [0]. by destruct (f [0]).
  - unfold postselected_items. simpl. by destruct (f []).
Qed.

(** On that list [concretize] calls the processing function without
    argument, whatever the outcomes. *)
Lemma concretize_items_zero_dependencies :
  items count_args = Some [([0], 1)] ∧
  ∀ outcomes, concretize count_args outcomes = Some 0.
Proof. split; [reflexivity|]. intros outcomes. reflexivity. Qed.

(** ** Postselection-aware enumeration *)

(** The dictionary [ps] maps a position to the postselect value of the
    record at that position. *)
Lemma dict_lookup_enumerate (ms : list MidMeasureMP) (k j : nat) :
  dict_lookup
    (omap (λ im : nat * MidMeasureMP,
             p ← MidMeasureMP.postselect im.2; Some (im.1, p))
          (zip (seq k (length ms)) ms)) j
  = if decide (k ≤ j)%nat then ms !! (j - k)%nat ≫= MidMeasureMP.postselect else None.
Proof.
  revert k. induction ms as [|m ms IH]; intros k; simpl.
  { by case_decide. }
  destruct (MidMeasureMP.postselect m) as [p|] eqn:Hp; simpl.
  - destruct (decide (k = j)) as [->|Hkj].
    + rewrite decide_True by lia. rewrite Nat.sub_diag. simpl. by rewrite Hp.
    + rewrite IH. destruct (decide (k ≤ j)%nat) as [Hle|Hgt].
      * rewrite decide_True by lia.
        replace (j - k)%nat with (S (j - S k)) by lia. done.
      * by rewrite decide_False by lia.
  - rewrite IH. destruct (decide (k ≤ j)%nat) as [Hle|Hgt].
    + destruct (decide (k = j)) as [->|Hkj].
      * rewrite decide_False by lia. rewrite Nat.sub_diag. simpl. by rewrite Hp.
      * rewrite decide_True by lia.
        replace (j - k)%nat with (S (j - S k)) by lia. done.
    + by rewrite decide_False by lia.
Qed.

Lemma postselect_dict_lookup (ms : list MidMeasureMP) (j : nat) :
  dict_lookup (postselect_dict ms) j = ms !! j ≫= MidMeasureMP.postselect.
Proof.
  unfold postselect_dict. rewrite dict_lookup_enumerate.
  rewrite decide_True by lia. by rewrite Nat.sub_0_r.
Qed.

Lemma postselect_dict_values_from (ms : list MidMeasureMP) (k : nat) :
  (omap (λ im : nat * MidMeasureMP,
           p ← MidMeasureMP.postselect im.2; Some (im.1, p))
        (zip (seq k (length ms)) ms)).*2
  = omap MidMeasureMP.postselect ms.
Proof.
  revert k. induction ms as [|m ms IH]; intros k; simpl; [done|].
  destruct (MidMeasureMP.postselect m); simpl; by rewrite IH.
Qed.

(** [ps.values()]: the postselect values in the order of the
    dependencies. *)
Lemma postselect_dict_values (ms : list MidMeasureMP) :
  (postselect_dict ms).*2 = omap MidMeasureMP.postselect ms.
Proof. apply postselect_dict_values_from. Qed.

Lemma length_omap_postselect (ms : list MidMeasureMP) :
  length (omap MidMeasureMP.postselect ms) = num_postselected ms.
Proof.
  unfold num_postselected. induction ms as [|m ms IH]; simpl; [done|].
  rewrite filter_cons. destruct (MidMeasureMP.postselect m) eqn:Hp.
  - rewrite decide_True by (by eexists). simpl. f_equal. exact IH.
  - rewrite decide_False by (by intros [? ?]). done.
Qed.

Lemma postselect_dict_length (ms : list MidMeasureMP) :
  length (postselect_dict ms) = num_postselected ms.
Proof.
  by rewrite <-length_omap_postselect, <-postselect_dict_values, length_fmap.
Qed.

Lemma num_free_cons (m : MidMeasureMP) (ms : list MidMeasureMP) :
  num_free (m :: ms) =
    match MidMeasureMP.postselect m with
    | Some _ => num_free ms
    | None => S (num_free ms)
    end.
Proof.
  unfold num_free. rewrite filter_cons.
  destruct (MidMeasureMP.postselect m) eqn:Hp.
  - by rewrite decide_False by done.
  - by rewrite decide_True by done.
Qed.

Lemma num_postselected_cons (m : MidMeasureMP) (ms : list MidMeasureMP) :
  num_postselected (m :: ms) =
    match MidMeasureMP.postselect m with
    | Some _ => S (num_postselected ms)
    | None => num_postselected ms
    end.
Proof.
  unfold num_postselected. rewrite filter_cons.
  destruct (MidMeasureMP.postselect m) eqn:Hp.
  - by rewrite decide_True by (by eexists).
  - by rewrite decide_False by (by intros [? ?]).
Qed.

Lemma num_postselected_free (ms : list MidMeasureMP) :
  (num_postselected ms + num_free ms)%nat = length ms.
Proof.
  induction ms as [|m ms IH]; [done|].
  rewrite num_free_cons, num_postselected_cons.
  destruct (MidMeasureMP.postselect m); simpl; lia.
Qed.

Lemma free_part_cons (m : MidMeasureMP) (ms : list MidMeasureMP) (b : Z) (full : list Z) :
  free_part (m :: ms) (b :: full) =
    match MidMeasureMP.postselect m with
    | Some _ => free_part ms full
    | None => b :: free_part ms full
    end.
Proof.
  unfold free_part. simpl. rewrite filter_cons. simpl.
  destruct (MidMeasureMP.postselect m) eqn:Hp.
  - by rewrite decide_False by done.
  - by rewrite decide_True by done.
Qed.

(** The generator expression of [postselected_items] never exhausts the
    iterator when the branch has one bit per free dependency, and what it
    builds is the reconstruction of the full vector. *)
Lemma full_branch_from_reconstructs (ps : list (nat * Z)) (ms : list MidMeasureMP)
    (k : nat) (branch : list Z) :
  (∀ j m, ms !! j = Some m → dict_lookup ps (k + j) = MidMeasureMP.postselect m) →
  length branch = num_free ms →
  ∃ full, full_branch_from ps (seq k (length ms)) branch = Some full ∧
          reconstructs ms branch full.
Proof.
  revert k branch. induction ms as [|m ms IH]; intros k branch Hps Hlen.
  { exists []. destruct branch; [|done]. by repeat split. }
  assert (∀ j m', ms !! j = Some m' →
                  dict_lookup ps (S k + j) = MidMeasureMP.postselect m') as Hps'.
  { intros j m' Hm'. rewrite <-(Hps (S j) m' Hm'). f_equal. lia. }
  pose proof (Hps 0%nat m eq_refl) as Hm. rewrite Nat.add_0_r in Hm.
  rewrite num_free_cons in Hlen. simpl. rewrite Hm.
  destruct (MidMeasureMP.postselect m) as [p|] eqn:Hp.
  - destruct (IH (S k) branch Hps' Hlen) as (full & -> & Hlen' & Hfixed & Hfree & Hpart).
    exists (p :: full). split; [done|]. split; [simpl; by rewrite Hlen'|].
    split; [|split].
    + intros [|j] m' p' Hm' Hp'; simpl in *; [by simplify_eq|eauto].
    + intros [|j] m' Hm' Hp'; simpl in *; [by simplify_eq|].
      rewrite num_free_cons, Hp. eauto.
    + by rewrite free_part_cons, Hp.
  - destruct branch as [|b branch]; [done|]. simpl in Hlen.
    destruct (IH (S k) branch Hps') as (full & -> & Hlen' & Hfixed & Hfree & Hpart);
      [lia|].
    exists (b :: full). split; [done|]. split; [simpl; by rewrite Hlen'|].
    split; [|split].
    + intros [|j] m' p' Hm' Hp'; simpl in *; [by simplify_eq|eauto].
    + intros [|j] m' Hm' Hp'; simpl in *; [done|].
      rewrite num_free_cons, Hp. simpl. eauto.
    + by rewrite free_part_cons, Hp, Hpart.
Qed.

Lemma full_branch_reconstructs (ms : list MidMeasureMP) (branch : list Z) :
  length branch = num_free ms →
  ∃ full, full_branch (postselect_dict ms) (length ms) branch = Some full ∧
          reconstructs ms branch full.
Proof.
  intros Hlen. apply full_branch_from_reconstructs; [|done].
  intros j m Hm. simpl. by rewrite postselect_dict_lookup, Hm.
Qed.

(** Without free dependency, [ps.values()] is the full vector. *)
Lemma fixed_vector_reconstructs (ms : list MidMeasureMP) :
  num_free ms = 0%nat → reconstructs ms [] (omap MidMeasureMP.postselect ms).
Proof.
  intros Hfree.
  destruct (full_branch_reconstructs ms [] (eq_sym Hfree)) as (full & Hfull & Hrec).
  enough (full = omap MidMeasureMP.postselect ms) as <- by done.
  destruct Hrec as (Hlen & Hfixed & _ & _). clear Hfull.
  revert full Hlen Hfixed. induction ms as [|m ms IH]; intros full Hlen Hfixed.
  { by destruct full. }
  rewrite num_free_cons in Hfree.
  destruct (MidMeasureMP.postselect m) as [p|] eqn:Hp; [|done].
  destruct full as [|b full]; [done|]. simpl. rewrite Hp.
  pose proof (Hfixed 0%nat m p eq_refl Hp) as Hb. simpl in Hb. simplify_eq.
  f_equal. apply IH; [done|by simplify_eq/=|].
  intros j m' p' Hm' Hp'. exact (Hfixed (S j) m' p' Hm' Hp').
Qed.

(** What [postselected_items] yields, entry by entry. *)
Lemma postselected_items_entries {T} (mv : MeasurementValue T) :
  total_on_domain mv →
  let ms := measurements mv in
  ∃ entries,
    postselected_items mv = Some entries ∧
    length entries = (2 ^ num_free ms)%nat ∧
    ∀ i, (i < 2 ^ num_free ms)%nat →
      ∃ branch full out,
        entries !! i = Some (branch, out) ∧
        length branch = num_free ms ∧ Forall is_bit branch ∧
        bits_value branch = Z.of_nat i ∧
        reconstructs ms branch full ∧
        processing_fn mv full = Some out.
Proof.
  intros Htotal ms. unfold postselected_items. fold ms.
  rewrite postselect_dict_length, postselect_dict_values.
  pose proof (num_postselected_free ms) as Hsum.
  replace (length ms - num_postselected ms)%nat with (num_free ms) by lia.
  destruct (decide (num_free ms = 0%nat)) as [Hzero|Hpos].
  - pose proof (fixed_vector_reconstructs ms Hzero) as Hrec.
    destruct (Htotal (omap MidMeasureMP.postselect ms)) as [out Hout].
    { apply Hrec. }
    rewrite Hout, Hzero. simpl. exists [([], out)]. split; [done|]. split; [done|].
    intros i Hi. assert (i = 0%nat) as -> by lia.
    exists [], (omap MidMeasureMP.postselect ms), out.
    split; [done|]. split; [done|]. split; [constructor|]. done.
  - assert (∀ i, (i < 2 ^ num_free ms)%nat →
              ∃ full out,
                full_branch (postselect_dict ms) (length ms)
                            (format_branch i (num_free ms)) = Some full ∧
                reconstructs ms (format_branch i (num_free ms)) full ∧
                processing_fn mv full = Some out) as Hstep.
    { intros i Hi.
      destruct (full_branch_reconstructs ms (format_branch i (num_free ms)))
        as (full & Hfull & Hrec).
      { apply format_branch_length; [lia|done]. }
      destruct (Htotal full) as [out Hout]; [apply Hrec|].
      by exists full, out. }
    destruct (mapM_seq_Some
                (λ i, let non_ps_branch := format_branch i (num_free ms) in
                      full_branch ← full_branch (postselect_dict ms) (length ms) non_ps_branch;
                      out ← processing_fn mv full_branch;
                      Some (non_ps_branch, out)) (2 ^ num_free ms))
      as (entries & Hentries & Hlen & Hlookup).
    { intros i Hi. destruct (Hstep i Hi) as (full & out & Hfull & _ & Hout).
      simpl. rewrite Hfull. simpl. rewrite Hout. by eexists. }
    exists entries. split; [done|]. split; [done|]. intros i Hi.
    destruct (Hstep i Hi) as (full & out & Hfull & Hrec & Hout).
    exists (format_branch i (num_free ms)), full, out.
    rewrite (Hlookup i Hi). simpl. rewrite Hfull. simpl. rewrite Hout.
    split; [done|]. split; [apply format_branch_length; [lia|done]|].
    split; [apply format_branch_bits|]. split; [apply format_branch_value|done].
Qed.

Lemma num_free_app (ms1 ms2 : list MidMeasureMP) :
  num_free (ms1 ++ ms2) = (num_free ms1 + num_free ms2)%nat.
Proof. unfold num_free. by rewrite filter_app, length_app. Qed.

Lemma num_free_lookup (ms : list MidMeasureMP) (j : nat) (m : MidMeasureMP) :
  ms !! j = Some m →
  num_free ms =
    match MidMeasureMP.postselect m with
    | Some _ => (num_free (take j ms) + num_free (drop (S j) ms))%nat
    | None => S (num_free (take j ms) + num_free (drop (S j) ms))
    end.
Proof.
  intros Hm. rewrite <-(take_drop_middle ms j m Hm) at 1.
  rewrite num_free_app, num_free_cons. destruct (MidMeasureMP.postselect m); lia.
Qed.

(** C5: for a value whose processing function is total on its domain,
    with [n] dependencies of which [p] carry a postselection,
    [postselected_items] yields [2 ^ (n - p)] entries; the assignment of
    entry [i] is the vector of [n - p] bits that denotes [i], most
    significant bit first; the output of the entry is the processing
    function at a full vector of [n] entries that holds the declared value
    at every postselected position and the bits of the assignment, in
    order, at the free positions.  When [p = n] there is one entry, the
    empty assignment with the processing function at the vector of the
    declared values. *)
Theorem postselected_items_enumeration {T} (mv : MeasurementValue T) :
  total_on_domain mv →
  let ms := measurements mv in
  let n := length ms in
  let p := num_postselected ms in
  ∃ entries,
    postselected_items mv = Some entries ∧
    length entries = (2 ^ (n - p))%nat ∧
    (∀ i, (i < 2 ^ (n - p))%nat →
       ∃ branch full out,
         entries !! i = Some (branch, out) ∧
         length branch = (n - p)%nat ∧ Forall is_bit branch ∧
         bits_value branch = Z.of_nat i ∧
         length full = n ∧
         (∀ j m v, ms !! j = Some m → MidMeasureMP.postselect m = Some v →
                   full !! j = Some v) ∧
         free_part ms full = branch ∧
         processing_fn mv full = Some out) ∧
    (p = n →
       ∃ out, entries = [([], out)] ∧
              processing_fn mv (omap MidMeasureMP.postselect ms) = Some out).
Proof.
  intros Htotal ms n p.
  destruct (postselected_items_entries mv Htotal) as (entries & Hitems & Hlen & Hentry).
  fold ms in Hlen, Hentry.
  pose proof (num_postselected_free ms) as Hsum.
  replace (n - p)%nat with (num_free ms) by (subst n p; lia).
  exists entries. split; [done|]. split; [done|]. split.
  - intros i Hi.
    destruct (Hentry i Hi) as (branch & full & out & ? & ? & ? & ? & Hrec & ?).
    destruct Hrec as (? & ? & _ & ?). by exists branch, full, out.
  - intros Hpn. assert (num_free ms = 0%nat) as Hzero by (subst n p; lia).
    unfold postselected_items in Hitems. fold ms in Hitems.
    rewrite postselect_dict_length, postselect_dict_values in Hitems.
    replace (length ms - num_postselected ms)%nat with 0%nat in Hitems by lia.
    simpl in Hitems.
    destruct (processing_fn mv (omap MidMeasureMP.postselect ms)) as [out|];
      [|done].
    exists out. simpl in Hitems. by simplify_eq.
Qed.

Lemma postselected_items_enumeration_witness :
  ∃ entries,
    postselected_items
      (mkMeasurementValue
         [record_a; MidMeasureMP.mk [1] false (Some 1) "b"; record_b]
         (λ x, Some (bits_value x))) = Some entries ∧
    length entries = 4%nat.
Proof.
  destruct (postselected_items_enumeration
              (mkMeasurementValue
                 [record_a; MidMeasureMP.mk [1] false (Some 1) "b"; record_b]
                 (λ x, Some (bits_value x))))
    as (entries & Hitems & Hlen & _).
  - intros x _. by eexists.
  - exists entries. split; [exact Hitems|exact Hlen].
Defined.

(** C10: a dependency whose postselect value is 0 is fixed.  It
    contributes no bit to the enumerated assignments (their length counts
    the free dependencies before and after it) and every full vector
    holds 0 at its position.  A dependency whose postselect is None is
    free: it contributes one bit, and every full vector holds that bit at
    its position. *)
Theorem postselect_zero_is_fixed {T} (mv : MeasurementValue T) (j : nat) (m : MidMeasureMP) :
  total_on_domain mv →
  measurements mv !! j = Some m →
  let ms := measurements mv in
  let others := (num_free (take j ms) + num_free (drop (S j) ms))%nat in
  ∃ entries,
    postselected_items mv = Some entries ∧
    (MidMeasureMP.postselect m = Some 0 →
       length entries = (2 ^ others)%nat ∧
       ∀ branch out, (branch, out) ∈ entries →
         length branch = others ∧
         ∃ full, reconstructs ms branch full ∧ full !! j = Some 0 ∧
                 processing_fn mv full = Some out) ∧
    (MidMeasureMP.postselect m = None →
       length entries = (2 ^ S others)%nat ∧
       ∀ branch out, (branch, out) ∈ entries →
         length branch = S others ∧
         ∃ full b, reconstructs ms branch full ∧
                   branch !! num_free (take j ms) = Some b ∧ full !! j = Some b ∧
                   processing_fn mv full = Some out).
Proof.
  intros Htotal Hm ms others.
  destruct (postselected_items_entries mv Htotal) as (entries & Hitems & Hlen & Hentry).
  fold ms in Hlen, Hentry. pose proof (num_free_lookup ms j m Hm) as Hfree.
  fold others in Hfree.
  assert (∀ branch out, (branch, out) ∈ entries →
            length branch = num_free ms ∧
            ∃ full, reconstructs ms branch full ∧ processing_fn mv full = Some out)
    as Hall.
  { intros branch out Hin. apply list_elem_of_lookup in Hin as [i Hi].
    pose proof (lookup_lt_Some _ _ _ Hi) as Hlt. rewrite Hlen in Hlt.
    destruct (Hentry i Hlt) as (branch' & full & out' & Hi' & ? & _ & _ & ? & ?).
    rewrite Hi in Hi'. simplify_eq. eauto. }
  exists entries. split; [done|]. split; intros Hp; rewrite Hp in Hfree.
  - split; [by rewrite <-Hfree|]. intros branch out Hin.
    destruct (Hall branch out Hin) as (Hblen & full & Hrec & Hout).
    split; [by rewrite <-Hfree|]. exists full.
    split; [done|]. split; [|done].
    destruct Hrec as (_ & Hfixed & _). by apply (Hfixed j m).
  - split; [by rewrite <-Hfree|]. intros branch out Hin.
    destruct (Hall branch out Hin) as (Hblen & full & Hrec & Hout).
    split; [by rewrite <-Hfree|].
    destruct (lookup_lt_is_Some_2 branch (num_free (take j ms))) as [b Hb]; [lia|].
    exists full, b. split; [done|]. split; [done|]. split; [|done].
    destruct Hrec as (_ & _ & Hfreepos & _). by rewrite (Hfreepos j m).
Qed.

Lemma postselect_zero_is_fixed_witness :
  ∃ entries,
    postselected_items
      (mkMeasurementValue
         [record_a; MidMeasureMP.mk [1] false (Some 0) "b"]
         (λ x, Some (bits_value x))) = Some entries ∧
    length entries = 2%nat.
Proof.
  destruct (postselect_zero_is_fixed
              (mkMeasurementValue
                 [record_a; MidMeasureMP.mk [1] false (Some 0) "b"]
                 (λ x, Some (bits_value x)))
              1 (MidMeasureMP.mk [1] false (Some 0) "b"))
    as (entries & Hitems & Hzero & _).
  - intros x _. by eexists.
  - reflexivity.
  - exists entries. split; [exact Hitems|]. exact (proj1 (Hzero eq_refl)).
Defined.

(** ** Construction *)

(** C7, as stated, fails: the postselect value is not checked; a
    measurement of one wire postselected on 2 is constructed. *)
Lemma measure_impl_accepts_postselect_2 :
  _measure_impl [0] false (Some 2) "a" =
    Measured (mkMeasurementValue [MidMeasureMP.mk [0] false (Some 2) "a"] identity_fn).
Proof. reflexivity. Qed.

(** The guard [len(wires) > 1] lets an empty target through; the
    construction of the record then raises. *)
Lemma measure_impl_empty_target (reset : bool) (postselect : option Z)
    (measurement_id : string) :
  _measure_impl [] reset postselect measurement_id = ValueError.
Proof. reflexivity. Qed.

(** C7 (amended): construction raises whenever the target does not
    resolve to exactly one location ([QuantumFunctionError] for several
    locations, the [ValueError] of the record for none), and the
    postselect value is not validated: for a target of exactly one
    location it succeeds whatever the postselect value, and returns a
    value over one new record with the identity as processing function.
    The record is made of the arguments and carries the token drawn for
    it, so it is none of the records that carry another token. *)
Theorem measure_impl_outcome (wires : list Z) (reset : bool) (postselect : option Z)
    (measurement_id : string) :
  ((1 < length wires)%nat →
     ∃ msg, _measure_impl wires reset postselect measurement_id = QuantumFunctionError msg) ∧
  (length wires = 0%nat →
     _measure_impl wires reset postselect measurement_id = ValueError) ∧
  (length wires = 1%nat →
     let mp := MidMeasureMP.mk wires reset postselect measurement_id in
     _measure_impl wires reset postselect measurement_id =
       Measured (mkMeasurementValue [mp] identity_fn) ∧
     MidMeasureMP.id mp = measurement_id ∧
     ∀ existing : list MidMeasureMP,
       measurement_id ∉ MidMeasureMP.id <$> existing → mp ∉ existing) ∧
  (∀ v, identity_fn [v] = Some v).
Proof.
  unfold _measure_impl. split; [|split; [|split]].
  - intros Hlen. rewrite decide_True by done. by eexists.
  - intros Hlen. by destruct wires.
  - intros Hlen. rewrite decide_False by lia.
    destruct wires as [|w wires]; [done|]. split; [done|]. split; [done|].
    intros existing Hfresh Hin. apply Hfresh.
    apply list_elem_of_fmap.
    by exists (MidMeasureMP.mk (w :: wires) reset postselect measurement_id).
  - done.
Qed.

Lemma measure_impl_outcome_witness :
  (∃ msg, _measure_impl [0; 1] false None "a" = QuantumFunctionError msg) ∧
  _measure_impl [] false None "a" = ValueError ∧
  _measure_impl [0] true (Some 1) "a" =
    Measured (mkMeasurementValue [MidMeasureMP.mk [0] true (Some 1) "a"] identity_fn) ∧
  MidMeasureMP.mk [0] true (Some 1) "a" ∉ [record_b].
Proof.
  split; [|split; [|split]].
  - apply (proj1 (measure_impl_outcome [0; 1] false None "a")). simpl. lia.
  - apply (proj1 (proj2 (measure_impl_outcome [] false None "a"))). reflexivity.
  - apply (proj1 (proj2 (proj2 (measure_impl_outcome [0] true (Some 1) "a")))).
    reflexivity.
  - apply (proj1 (proj2 (proj2 (measure_impl_outcome [0] true (Some 1) "a")))).
    + reflexivity.
    + simpl. rewrite list_elem_of_singleton. discriminate.
Defined.

(** ** The post-processing scan *)

Lemma elem_of_set_union (s t : list MidMeasureMP) (r : MidMeasureMP) :
  r ∈ set_union s t ↔ r ∈ s ∨ r ∈ t.
Proof. unfold set_union. by rewrite elem_of_remove_dups, elem_of_app. Qed.

Lemma elem_of_set_of_list (l : list MidMeasureMP) (r : MidMeasureMP) :
  r ∈ set_of_list l ↔ r ∈ l.
Proof. apply elem_of_remove_dups. Qed.

Lemma elem_of_postselected_ops (ops : list operation) (r : MidMeasureMP) :
  r ∈ postselected_ops ops ↔
    MidMeasureOp r ∈ ops ∧ is_Some (MidMeasureMP.postselect r).
Proof.
  unfold postselected_ops. rewrite list_elem_of_omap. split.
  - intros (op & Hop & Hr). destruct op as [m|name]; [|done].
    destruct (MidMeasureMP.postselect m) eqn:Hp; [|done]. simplify_eq.
    split; [done|]. rewrite Hp. by eexists.
  - intros (Hop & [p Hp]). exists (MidMeasureOp r). split; [done|]. by rewrite Hp.
Qed.

Lemma elem_of_scan_values {T} (mvs : list (MeasurementValue T))
    (acc : list MidMeasureMP) (r : MidMeasureMP) :
  r ∈ foldl (λ acc mv, set_union acc (set_of_list (measurements mv))) acc mvs
  ↔ r ∈ acc ∨ ∃ mv, mv ∈ mvs ∧ r ∈ measurements mv.
Proof.
  revert acc. induction mvs as [|mv mvs IH]; intros acc; simpl.
  { split; [by left|]. intros [?|(mv & Hmv & _)]; [done|]. by apply elem_of_nil in Hmv. }
  rewrite IH, elem_of_set_union, elem_of_set_of_list. split.
  - intros [[?|?]|(mv' & ? & ?)]; [by left| |].
    + right. exists mv. split; [by left|done].
    + right. exists mv'. split; [by right|done].
  - intros [?|(mv' & Hmv' & ?)]; [by left; left|].
    apply elem_of_cons in Hmv' as [->|?]; [by left; right|].
    right. by exists mv'.
Qed.

Lemma elem_of_scan_measurement {T} (m_mv : mv_attribute T)
    (acc : list MidMeasureMP) (r : MidMeasureMP) :
  r ∈ scan_measurement acc m_mv
  ↔ r ∈ acc ∨ ∃ mv, mv ∈ attached_values m_mv ∧ r ∈ measurements mv.
Proof.
  destruct m_mv as [|mv|mvs]; simpl.
  - split; [by left|]. intros [?|(mv & Hmv & _)]; [done|]. by apply elem_of_nil in Hmv.
  - rewrite elem_of_set_union, elem_of_set_of_list. split.
    + intros [?|?]; [by left|]. right. exists mv. split; [by left|done].
    + intros [?|(mv' & Hmv' & ?)]; [by left|].
      apply list_elem_of_singleton in Hmv' as ->. by right.
  - apply elem_of_scan_values.
Qed.

Lemma elem_of_scan {T} (ms : list (mv_attribute T)) (acc : list MidMeasureMP)
    (r : MidMeasureMP) :
  r ∈ foldl scan_measurement acc ms
  ↔ r ∈ acc ∨ ∃ m_mv mv, m_mv ∈ ms ∧ mv ∈ attached_values m_mv ∧ r ∈ measurements mv.
Proof.
  revert acc. induction ms as [|m_mv ms IH]; intros acc; simpl.
  { split; [by left|]. intros [?|(m_mv & mv & Hm & _)]; [done|].
    by apply elem_of_nil in Hm. }
  rewrite IH, elem_of_scan_measurement. split.
  - intros [[?|(mv & ? & ?)]|(m_mv' & mv & ? & ? & ?)]; [by left| |].
    + right. exists m_mv, mv. split; [by left|done].
    + right. exists m_mv', mv. split; [by right|done].
  - intros [?|(m_mv' & mv & Hm & ? & ?)]; [by left; left|].
    apply elem_of_cons in Hm as [->|?].
    + left. right. by exists mv.
    + right. by exists m_mv', mv.
Qed.

Lemma NoDup_scan_measurement {T} (m_mv : mv_attribute T) (acc : list MidMeasureMP) :
  NoDup acc → NoDup (scan_measurement acc m_mv).
Proof.
  destruct m_mv as [|mv|mvs]; simpl; [done|intros _; apply NoDup_remove_dups|].
  revert acc. induction mvs as [|mv mvs IH]; intros acc Hacc; simpl; [done|].
  apply IH, NoDup_remove_dups.
Qed.

Lemma find_post_processed_mcms_NoDup {T} (circuit : Circuit.t T) :
  NoDup (find_post_processed_mcms circuit).
Proof.
  unfold find_post_processed_mcms.
  generalize (NoDup_remove_dups (postselected_ops (Circuit.operations circuit))).
  fold (set_of_list (postselected_ops (Circuit.operations circuit))).
  generalize (set_of_list (postselected_ops (Circuit.operations circuit))).
  induction (Circuit.measurements circuit) as [|m_mv ms IH]; intros acc Hacc; simpl; [done|].
  by apply IH, NoDup_scan_measurement.
Qed.

Lemma find_post_processed_mcms_elem_of {T} (circuit : Circuit.t T) (r : MidMeasureMP) :
  r ∈ find_post_processed_mcms circuit ↔
    (MidMeasureOp r ∈ Circuit.operations circuit ∧ is_Some (MidMeasureMP.postselect r)) ∨
    (∃ m_mv mv, m_mv ∈ Circuit.measurements circuit ∧
                mv ∈ attached_values m_mv ∧ r ∈ measurements mv).
Proof.
  unfold find_post_processed_mcms.
  by rewrite elem_of_scan, elem_of_set_of_list, elem_of_postselected_ops.
Qed.

(** C8: the scan returns a set (a list without repetition) that holds
    exactly the mid-circuit measurements of the circuit that carry a
    postselection and the dependencies of the values attached to the
    terminal measurements, whether a measurement carries one value or a
    list of values. *)
Theorem find_post_processed_mcms_exact {T} (circuit : Circuit.t T) :
  NoDup (find_post_processed_mcms circuit) ∧
  ∀ r, r ∈ find_post_processed_mcms circuit ↔
    (MidMeasureOp r ∈ Circuit.operations circuit ∧ is_Some (MidMeasureMP.postselect r)) ∨
    (∃ m_mv mv, m_mv ∈ Circuit.measurements circuit ∧
                mv ∈ attached_values m_mv ∧ r ∈ measurements mv).
Proof.
  split; [apply find_post_processed_mcms_NoDup|].
  intros r. apply find_post_processed_mcms_elem_of.
Qed.

(** The order of the operations and of the terminal measurements only
    changes the order in which the set is listed. *)
Lemma find_post_processed_mcms_order {T} (circuit circuit' : Circuit.t T) :
  Circuit.operations circuit ≡ₚ Circuit.operations circuit' →
  Circuit.measurements circuit ≡ₚ Circuit.measurements circuit' →
  find_post_processed_mcms circuit ≡ₚ find_post_processed_mcms circuit'.
Proof.
  intros Hops Hms. apply NoDup_Permutation; [apply find_post_processed_mcms_NoDup..|].
  intros r. rewrite !find_post_processed_mcms_elem_of.
  setoid_rewrite Hops. by setoid_rewrite Hms.
Qed.

(** ** The definedness check *)

Import AgPrimitives.

Lemma first_undefined_None (results : list value) (var_names : list string) :
  length results = length var_names →
  first_undefined (zip results var_names) = None ↔
  ∀ r, r ∈ results → is_undefined r = false.
Proof.
  revert var_names. induction results as [|r results IH]; intros [|v var_names] Hlen;
    simpl in *; try done.
  { split; [|done]. intros _ r Hr. by apply elem_of_nil in Hr. }
  destruct (is_undefined r) eqn:Hr.
  - split; [done|]. intros Hall. rewrite Hall in Hr; [done|by left].
  - rewrite IH by lia. split.
    + intros Hall r' Hr'. apply elem_of_cons in Hr' as [->|?]; auto.
    + intros Hall r' Hr'. apply Hall. by right.
Qed.

Lemma first_undefined_Some (results : list value) (var_names : list string) (v : string) :
  first_undefined (zip results var_names) = Some v →
  names_first_undefined results var_names v.
Proof.
  revert var_names. induction results as [|r results IH]; intros [|v' var_names];
    simpl; try done.
  destruct r as [name|z]; simpl.
  - intros [= ->]. exists 0%nat, name. split; [done|]. split; [done|]. lia.
  - intros Hfirst. destruct (IH var_names Hfirst) as (k & name & Hk & Hv & Hbefore).
    exists (S k), name. split; [done|]. split; [done|].
    intros [|k'] r Hlt Hr; simpl in Hr; [by simplify_eq|].
    apply (Hbefore k'); [lia|done].
Qed.

(** What [assert_results] does on as many results as names. *)
Lemma assert_results_outcome (results : list value) (var_names : list string) :
  length results = length var_names →
  ((∃ r, r ∈ results ∧ is_undefined r = true) →
     ∃ v, names_first_undefined results var_names v ∧
          assert_results results var_names = AutoGraphError (undefined_message v)) ∧
  ((∀ r, r ∈ results → is_undefined r = false) →
     assert_results results var_names = Returns results).
Proof.
  intros Hlen. unfold assert_results. rewrite decide_True by done.
  pose proof (first_undefined_None results var_names Hlen) as Hnone.
  destruct (first_undefined (zip results var_names)) as [v|] eqn:Hfirst.
  - split.
    + intros _. exists v. split; [by apply first_undefined_Some|done].
    + intros Hall. apply Hnone in Hall. done.
  - split; [|done]. intros (r & Hr & Hundef).
    rewrite (proj1 Hnone eq_refl r Hr) in Hundef. done.
Qed.

Lemma string_append_inv_tail (s1 s2 tail : string) :
  tail ≠ ""%string → (s1 ++ tail)%string = (s2 ++ tail)%string → s1 = s2.
Proof.
  intros Htail. revert s2.
  assert (∀ s, String.length (s ++ tail) = (String.length s + String.length tail)%nat)
    as Hlen.
  { intros s. induction s as [|c s IH]; simpl; [done|]. by rewrite IH. }
  induction s1 as [|c1 s1 IH]; intros [|c2 s2] Heq; simpl in Heq.
  - done.
  - apply (f_equal String.length) in Heq. simpl in Heq. rewrite !Hlen in Heq.
    simpl in Heq. lia.
  - apply (f_equal String.length) in Heq. simpl in Heq. rewrite !Hlen in Heq.
    simpl in Heq. lia.
  - injection Heq as -> Heq. f_equal. by apply IH.
Qed.

(** The message of the definedness error tells the variable. *)
Lemma undefined_message_inj (v1 v2 : string) :
  undefined_message v1 = undefined_message v2 → v1 = v2.
Proof.
  unfold undefined_message. simpl. intros Heq. simplify_eq.
  by apply (string_append_inv_tail v1 v2 "'").
Qed.



(** * Further properties *)

(** ** Sequencing in the option monad *)

Lemma mapM_option_ext_Forall {A B} (f g : A → option B) (l : list A) :
  Forall (λ x, f x = g x) l → mapM f l = mapM g l.
Proof.
  induction 1 as [|x l Hx _ IH]; simpl; [done|]. by rewrite Hx, IH.
Qed.

Lemma mapM_option_snoc {A B} (f : A → option B) (l : list A) (x : A) :
  mapM f (l ++ [x]) = ys ← mapM f l; y ← f x; Some (ys ++ [y]).
Proof.
  induction l as [|a l IH]; simpl.
  { by destruct (f x). }
  destruct (f a) as [b|]; simpl; [|done]. rewrite IH.
  destruct (mapM f l) as [ys|]; simpl; [|done]. by destruct (f x).
Qed.

Lemma mapM_option_bind {A B C} (h : A → option B) (k : B → option C) (l : list A) :
  mapM (λ x, h x ≫= k) l = mapM h l ≫= mapM k.
Proof.
  induction l as [|a l IH]; simpl; [done|].
  destruct (h a) as [b|]; simpl; [|done]. rewrite IH.
  destruct (mapM h l) as [ys|]; simpl; [|by destruct (k b)]. done.
Qed.

Lemma mapM_option_None {A B} (f : A → option B) (l : list A) (x : A) :
  x ∈ l → f x = None → mapM f l = None.
Proof.
  intros Hx Hnone. destruct (mapM f l) as [ys|] eqn:Hl; [|done].
  apply mapM_Some in Hl. apply list_elem_of_lookup in Hx as [i Hi].
  destruct (Forall2_lookup_l _ _ _ _ _ Hl Hi) as (y & _ & Hy). congruence.
Qed.

(** ** The dictionary of branches and indexing *)

Lemma dict_set_fresh {T} (k : list Z) (v : T) (d : list (list Z * T)) :
  k ∉ d.*1 → dict_set k v d = d ++ [(k, v)].
Proof.
  induction d as [|[k' v'] d IH]; simpl; [done|].
  intros Hk. apply not_elem_of_cons in Hk as [Hne Hk].
  rewrite decide_False by done. by rewrite IH.
Qed.

Lemma dict_get_lookup {T} (d : list (list Z * T)) (i : nat) (k : list Z) (v : T) :
  NoDup d.*1 → d !! i = Some (k, v) → dict_get d k = Some v.
Proof.
  revert i. induction d as [|[k' v'] d IH]; intros i Hnd Hi; [done|].
  simpl in *. apply NoDup_cons in Hnd as [Hnotin Hnd].
  destruct i as [|i]; simpl in Hi.
  - simplify_eq. by rewrite decide_True.
  - rewrite decide_False; [by apply (IH i)|].
    intros ->. apply Hnotin. apply list_elem_of_fmap. exists (k, v).
    split; [done|]. by apply list_elem_of_lookup_2 in Hi.
Qed.

(** The entries enumerated for the indices below [k] have pairwise
    different assignments. *)
Lemma enumerated_keys {T} (f : list Z → option T) (n k : nat) (d : list (list Z * T)) :
  mapM (λ i, out ← f (format_branch i n); Some (format_branch i n, out)) (seq 0 k) = Some d →
  NoDup d.*1 ∧ ∀ b, b ∈ d.*1 → (bits_value b < Z.of_nat k).
Proof.
  revert d. induction k as [|k IH]; intros d Hd.
  { injection Hd as <-. split; [constructor|]. intros b Hb. by apply elem_of_nil in Hb. }
  rewrite seq_S, mapM_option_snoc in Hd. simpl in Hd.
  destruct (mapM _ (seq 0 k)) as [d'|] eqn:Hd'; simpl in Hd; [|done].
  destruct (f (format_branch k n)) as [out|]; simpl in Hd; [|done]. simplify_eq.
  destruct (IH d' eq_refl) as [Hnd Hbound].
  rewrite fmap_app. simpl. split.
  - apply NoDup_app. split; [done|]. split; [|apply NoDup_singleton].
    intros b Hb Hb'. apply list_elem_of_singleton in Hb' as ->.
    apply Hbound in Hb. rewrite format_branch_value in Hb. lia.
  - intros b Hb. apply elem_of_app in Hb as [Hb|Hb].
    + apply Hbound in Hb. lia.
    + apply list_elem_of_singleton in Hb as ->. rewrite format_branch_value. lia.
Qed.

Lemma branches_loop {T} (f : list Z → option T) (n k : nat) :
  foldl (λ ret_dict i,
           ret_dict ← ret_dict;
           let branch := format_branch i n in
           out ← f branch;
           Some (dict_set branch out ret_dict))
        (Some []) (seq 0 k)
  = mapM (λ i, out ← f (format_branch i n); Some (format_branch i n, out)) (seq 0 k).
Proof.
  induction k as [|k IH]; [done|].
  rewrite seq_S, foldl_app, mapM_option_snoc, IH. simpl.
  destruct (mapM _ (seq 0 k)) as [d|] eqn:Hd; simpl; [|done].
  destruct (f (format_branch k n)) as [out|]; simpl; [|done].
  rewrite dict_set_fresh; [done|].
  intros Hin. apply (enumerated_keys f n k d Hd) in Hin.
  rewrite format_branch_value in Hin. lia.
Qed.

(** X1: no key of the dictionary [branches] is ever overwritten.  The
    dictionary holds the entries yielded by [items], in the same order,
    and looking up the assignment of an entry gives the output yielded
    with it. *)
Theorem branches_items {T} (mv : MeasurementValue T) :
  branches mv = items mv ∧
  ∀ d, branches mv = Some d →
    NoDup d.*1 ∧
    ∀ branch out, (branch, out) ∈ d →
      dict_get d branch = Some out ∧ processing_fn mv branch = Some out.
Proof.
  assert (branches mv = items mv) as Heq by apply branches_loop.
  split; [done|]. intros d Hd. rewrite Heq in Hd.
  destruct (enumerated_keys _ _ _ d Hd) as [Hnd _]. split; [done|].
  intros branch out Hin. apply list_elem_of_lookup in Hin as [i Hi].
  split; [by apply (dict_get_lookup d i)|].
  by destruct (items_lookup mv d i branch out Hd Hi) as (_ & _ & ?).
Qed.

(** X2: indexing agrees with the enumeration: [mv[i]] is the output of
    entry [i] of [items].  It has no bounds check: a negative index
    raises, and an index from [2 ^ n] on hands the processing function a
    vector with more entries than there are dependencies. *)
Theorem getitem_items {T} (mv : MeasurementValue T) :
  (∀ entries i branch out,
     items mv = Some entries → entries !! i = Some (branch, out) →
     __getitem__ mv (Z.of_nat i) = Some out) ∧
  (∀ i, i < 0 → __getitem__ mv i = None) ∧
  (∀ i, 2 ^ Z.of_nat (length (measurements mv)) ≤ i →
     ∃ branch, (length (measurements mv) < length branch)%nat ∧
               __getitem__ mv i = processing_fn mv branch).
Proof.
  split; [|split].
  - intros entries i branch out Hitems Hi.
    destruct (items_lookup mv entries i branch out Hitems Hi) as (_ & -> & Hout).
    unfold __getitem__. rewrite decide_False by lia. by rewrite Nat2Z.id.
  - intros i Hi. unfold __getitem__. by rewrite decide_True.
  - intros i Hi.
    assert (0 < 2 ^ Z.of_nat (length (measurements mv))) by (apply Z.pow_pos_nonneg; lia).
    exists (format_branch (Z.to_nat i) (length (measurements mv))). split.
    + pose proof (bits_value_bound _ (format_branch_bits (Z.to_nat i)
                                        (length (measurements mv)))) as Hbound.
      rewrite format_branch_value, Z2Nat.id in Hbound by lia.
      assert (2 ^ Z.of_nat (length (measurements mv))
              < 2 ^ Z.of_nat (length (format_branch (Z.to_nat i)
                                        (length (measurements mv))))) as Hlt by lia.
      apply Z.pow_lt_mono_r_iff in Hlt; lia.
    + unfold __getitem__. by rewrite decide_False by lia.
Qed.

(** ** Composition of values *)

(** X3: enumerating after [_apply] is enumerating first and applying the
    function to every output; the assignments are unchanged. *)
Theorem items_apply {T U} (mv : MeasurementValue T) (fn : T → option U) :
  items (_apply mv fn) =
    entries ← items mv;
    mapM (λ entry, out ← fn entry.2; Some (entry.1, out)) entries.
Proof.
  unfold items. simpl. rewrite <-mapM_option_bind.
  apply mapM_option_ext_Forall, Forall_forall. intros i _. simpl.
  by destruct (processing_fn mv _).
Qed.

Section OperatorFacts.
Context `{SetIteration}.

(** X4: a binary operation evaluates both operands on the same outcomes
    and combines the two results, whatever the order in which the merge
    lists the dependencies; with a plain second operand it combines the
    result of the first operand with it. *)
Theorem transform_bin_op_concretize {T U V} (a : MeasurementValue T)
    (base_bin : T → U → option V) (outcomes : MidMeasureMP → option Z) :
  (∀ b : MeasurementValue U,
     concretize (_transform_bin_op a base_bin (inl b)) outcomes =
       x ← concretize a outcomes; y ← concretize b outcomes; base_bin x y) ∧
  (∀ c : U,
     concretize (_transform_bin_op a base_bin (inr c)) outcomes =
       x ← concretize a outcomes; base_bin x c).
Proof.
  split.
  - intros b. simpl. rewrite concretize_apply, concretize_merge.
    destruct (concretize a outcomes); simpl; [|done].
    by destruct (concretize b outcomes).
  - intros c. simpl. by rewrite concretize_apply.
Qed.

End OperatorFacts.

Section OperatorLaws.
Context `{SetIteration}.

Lemma concretize_bin_op {T U V} (a : MeasurementValue T) (b : MeasurementValue U)
    (base_bin : T → U → option V) (outcomes : MidMeasureMP → option Z) :
  concretize (_transform_bin_op a base_bin (inl b)) outcomes =
    x ← concretize a outcomes; y ← concretize b outcomes; base_bin x y.
Proof.
  simpl. rewrite concretize_apply, concretize_merge.
  destruct (concretize a outcomes); simpl; [|done].
  by destruct (concretize b outcomes).
Qed.

(** X5: on any outcomes the operators are consistent with one another,
    although the two operand orders build different merged functions:
    [a < b] is [b > a], [a <= b] is [b >= a], [a != b] is the negation of
    [a == b], [a + b] is [b + a], and [c + a] is [a + c]. *)
Theorem operators_consistent (a b : MeasurementValue Z) (c : Z)
    (outcomes : MidMeasureMP → option Z) :
  concretize (__lt__ a (inl b)) outcomes = concretize (__gt__ b (inl a)) outcomes ∧
  concretize (__le__ a (inl b)) outcomes = concretize (__ge__ b (inl a)) outcomes ∧
  concretize (__ne__ a (inl b)) outcomes = negb <$> concretize (__eq__ a (inl b)) outcomes ∧
  concretize (__add__ a (inl b)) outcomes = concretize (__add__ b (inl a)) outcomes ∧
  concretize (__radd__ a c) outcomes = concretize (__add__ a (inr c)) outcomes.
Proof.
  unfold __lt__, __gt__, __le__, __ge__, __ne__, __eq__, __add__, __radd__.
  rewrite !concretize_bin_op. simpl. rewrite !concretize_apply.
  destruct (concretize a outcomes) as [x|], (concretize b outcomes) as [y|];
    simpl; repeat split; try done; try (f_equal; lia).
  f_equal. apply bool_decide_not.
Qed.

End OperatorLaws.

(** ** Remapping the wires of a value *)

Lemma postselect_dict_map_wires_from (wire_map : Z → Z) (ms : list MidMeasureMP) (k : nat) :
  omap (λ im : nat * MidMeasureMP, p ← MidMeasureMP.postselect im.2; Some (im.1, p))
       (zip (seq k (length (MidMeasureMP.map_wires wire_map <$> ms)))
            (MidMeasureMP.map_wires wire_map <$> ms))
  = omap (λ im : nat * MidMeasureMP, p ← MidMeasureMP.postselect im.2; Some (im.1, p))
         (zip (seq k (length ms)) ms).
Proof.
  revert k. induction ms as [|m ms IH]; intros k; simpl; [done|].
  destruct (MidMeasureMP.postselect m); simpl; by rewrite IH.
Qed.

Lemma mapM_option_fmap {A B C} (f : A → B) (g : B → option C) (l : list A) :
  mapM g (f <$> l) = mapM (λ x, g (f x)) l.
Proof.
  induction l as [|x l IH]; [done|].
  change (mapM g (f <$> x :: l)) with (y ← g (f x); k ← mapM g (f <$> l); mret (y :: k)).
  by rewrite IH.
Qed.

(** X6: remapping the wires changes neither enumeration, and
    concretizing the remapped value reads the outcomes at the remapped
    records. *)
Theorem map_wires_enumerations {T} (mv : MeasurementValue T) (wire_map : Z → Z) :
  items (map_wires mv wire_map) = items mv ∧
  postselected_items (map_wires mv wire_map) = postselected_items mv ∧
  ∀ outcomes,
    concretize (map_wires mv wire_map) outcomes =
      concretize mv (λ m, outcomes (MidMeasureMP.map_wires wire_map m)).
Proof.
  split; [|split].
  - unfold items. simpl. by rewrite length_fmap.
  - unfold postselected_items, postselect_dict. simpl.
    rewrite postselect_dict_map_wires_from. by rewrite length_fmap.
  - intros outcomes. unfold concretize. simpl.
    by rewrite mapM_option_fmap.
Qed.

(** ** Vectors handed to a merged function *)

Lemma index_unique (l : list MidMeasureMP) (m : MidMeasureMP) (i j : nat) :
  NoDup l → l !! j = Some m → index l m = Some i → i = j.
Proof.
  intros Hnd Hj Hi. apply index_Some in Hi. by apply (NoDup_lookup l i j m).
Qed.

(** The positions of records of [l], read in a vector at least as long
    as [l]. *)
Lemma project_vector (l ms : list MidMeasureMP) (x : list Z) :
  (∀ m, m ∈ ms → m ∈ l) → (length l ≤ length x)%nat →
  ∃ idx args,
    mapM (index l) ms = Some idx ∧ Forall (λ i, (i < length l)%nat) idx ∧
    mapM (λ i, x !! i) idx = Some args ∧ length args = length ms.
Proof.
  intros Hsub Hlen. induction ms as [|m ms IH].
  { by exists [], []. }
  destruct IH as (idx & args & Hidx & Hbound & Hargs & Hlen').
  { intros m' ?. apply Hsub. by right. }
  destruct (index_elem_of l m) as [i Hi]; [apply Hsub; by left|].
  pose proof (lookup_lt_Some _ _ _ (index_Some _ _ _ Hi)) as Hlt.
  destruct (lookup_lt_is_Some_2 x i) as [v Hv]; [lia|].
  exists (i :: idx), (v :: args). simpl. rewrite Hi, Hidx. simpl. rewrite Hv, Hargs. simpl.
  split; [done|]. split; [by constructor|]. split; [done|]. by rewrite Hlen'.
Qed.

Section MergedFunction.
Context `{SetIteration}.

(** X7: the merged function reads the entries of its vector at the
    positions of the merged dependencies only: it raises on every vector
    that is shorter than the merged list, and ignores whatever comes after
    the entries it needs. *)
Theorem merged_fn_vector_length {T U} (a : MeasurementValue T) (b : MeasurementValue U)
    (x : list Z) :
  let merged := _merge a b in
  ((length x < length (measurements merged))%nat → processing_fn merged x = None) ∧
  ((length (measurements merged) ≤ length x)%nat →
     ∀ extra, processing_fn merged (x ++ extra) = processing_fn merged x).
Proof.
  intros merged. split.
  - intros Hlen.
    destruct (lookup_lt_is_Some_2 (measurements merged) (length x) Hlen) as [m Hm].
    assert (∀ ms idx, m ∈ ms → mapM (index (measurements merged)) ms = Some idx →
                      mapM (λ i, x !! i) idx = None) as Hnone.
    { intros ms idx Hin Hidx. apply mapM_Some in Hidx.
      apply list_elem_of_lookup in Hin as [j Hj].
      destruct (Forall2_lookup_l _ _ _ _ _ Hidx Hj) as (i & Hi & Hindex).
      apply (index_unique _ _ _ (length x)) in Hindex;
        [|apply merge_measurements_NoDup|done].
      subst i. apply (mapM_option_None _ idx (length x)).
      - by apply list_elem_of_lookup_2 in Hi.
      - apply lookup_ge_None. lia. }
    simpl. unfold merged_fn.
    destruct (mapM _ (measurements a)) as [idx_1|] eqn:Hidx_1; simpl; [|done].
    destruct (mapM _ (measurements b)) as [idx_2|] eqn:Hidx_2; simpl; [|done].
    apply list_elem_of_lookup_2, merge_measurements_elem_of in Hm as [Hm|Hm].
    + by rewrite (Hnone _ _ Hm Hidx_1).
    + rewrite (Hnone _ _ Hm Hidx_2).
      destruct (mapM _ idx_1) as [args_1|]; simpl; [|done].
      by destruct (processing_fn a args_1).
  - intros Hlen extra.
    destruct (project_vector (measurements merged) (measurements a) x)
      as (idx_1 & args_1 & Hidx_1 & Hbound_1 & _ & _); [|done|].
    { intros m ?. apply merge_measurements_elem_of. by left. }
    destruct (project_vector (measurements merged) (measurements b) x)
      as (idx_2 & args_2 & Hidx_2 & Hbound_2 & _ & _); [|done|].
    { intros m ?. apply merge_measurements_elem_of. by right. }
    assert (∀ idx, Forall (λ i, (i < length (measurements merged))%nat) idx →
                   mapM (λ i, (x ++ extra) !! i) idx = mapM (λ i, x !! i) idx) as Hsame.
    { intros idx Hbound. apply mapM_option_ext_Forall.
      eapply Forall_impl; [exact Hbound|]. intros i Hi. simpl in *.
      apply lookup_app_l. unfold merged in Hlen. simpl in Hlen. lia. }
    simpl in *. unfold merged_fn. rewrite Hidx_1, Hidx_2. simpl.
    by rewrite (Hsame idx_1 Hbound_1), (Hsame idx_2 Hbound_2).
Qed.

(** X8: values whose processing function is total on its domain stay so
    under [_merge], under [_apply] with a function that always returns,
    and under [map_wires]. *)
Theorem total_on_domain_preserved {T U V} (a : MeasurementValue T) (b : MeasurementValue U)
    (fn : T → option V) (wire_map : Z → Z) :
  total_on_domain a →
  (total_on_domain b → total_on_domain (_merge a b)) ∧
  ((∀ v, is_Some (fn v)) → total_on_domain (_apply a fn)) ∧
  total_on_domain (map_wires a wire_map).
Proof.
  intros Ha. split; [|split].
  - intros Hb x Hlen.
    destruct (project_vector (measurements (_merge a b)) (measurements a) x)
      as (idx_1 & args_1 & Hidx_1 & _ & Hargs_1 & Hlen_1); [|lia|].
    { intros m ?. apply merge_measurements_elem_of. by left. }
    destruct (project_vector (measurements (_merge a b)) (measurements b) x)
      as (idx_2 & args_2 & Hidx_2 & _ & Hargs_2 & Hlen_2); [|lia|].
    { intros m ?. apply merge_measurements_elem_of. by right. }
    destruct (Ha args_1 Hlen_1) as [out_1 Hout_1].
    destruct (Hb args_2 Hlen_2) as [out_2 Hout_2].
    simpl in *. unfold merged_fn. rewrite Hidx_1, Hidx_2. simpl.
    rewrite Hargs_1. simpl. rewrite Hout_1. simpl. rewrite Hargs_2. simpl.
    rewrite Hout_2. by eexists.
  - intros Hfn x Hlen. simpl in *. destruct (Ha x Hlen) as [out ->]. simpl. apply Hfn.
  - intros x Hlen. simpl in *. rewrite length_fmap in Hlen. by apply Ha.
Qed.

End MergedFunction.

Lemma total_on_domain_preserved_witness :
  total_on_domain (@_merge listed_order _ _ value_a value_b).
Proof.
  refine (proj1 (@total_on_domain_preserved listed_order Z Z Z value_a value_b
                   (λ v, Some v) wire_0_to_1 _) _).
  - intros [|v [|w x]] Hlen; simpl in Hlen; try lia. by eexists.
  - intros [|v [|w x]] Hlen; simpl in Hlen; try lia. by eexists.
Defined.

(** ** Concretizing *)

(** X9: [concretize] raises as soon as the outcomes lack one
    dependency; when the processing function is total on its domain this
    is the only way it raises. *)
Theorem concretize_missing_outcome {T} (mv : MeasurementValue T)
    (outcomes : MidMeasureMP → option Z) :
  (∀ m, m ∈ measurements mv → outcomes m = None → concretize mv outcomes = None) ∧
  (total_on_domain mv →
     (is_Some (concretize mv outcomes) ↔
      ∀ m, m ∈ measurements mv → is_Some (outcomes m))).
Proof.
  split.
  - intros m Hm Hnone. unfold concretize.
    by rewrite (mapM_outcomes_elem_of_None _ _ _ Hm Hnone).
  - intros Htotal. unfold concretize. split.
    + intros Hsome m Hm. destruct (outcomes m) eqn:Hout; [by eexists|].
      rewrite (mapM_outcomes_elem_of_None _ _ _ Hm Hout) in Hsome.
      by destruct Hsome.
    + intros Hall.
      assert (is_Some (mapM outcomes (measurements mv))) as [values Hvalues].
      { apply mapM_is_Some, Forall_forall. intros m Hm. by apply Hall. }
      rewrite Hvalues. simpl. apply Htotal.
      apply mapM_Some in Hvalues. symmetry. by eapply Forall2_length.
Qed.

(** ** A fresh measurement *)

(** X10: the value returned for a measurement of exactly one wire
    enumerates the two outcomes with the identity as output; without
    postselection both enumerations coincide, with postselection on [p]
    the reduced enumeration is the single empty assignment with output
    [p]; and concretizing returns the outcome recorded for the new
    record. *)
Theorem measure_impl_enumerations (wires : list Z) (reset : bool) (postselect : option Z)
    (measurement_id : string) :
  length wires = 1%nat →
  ∃ mv,
    _measure_impl wires reset postselect measurement_id = Measured mv ∧
    measurements mv = [MidMeasureMP.mk wires reset postselect measurement_id] ∧
    items mv = Some [([0], 0); ([1], 1)] ∧
    (postselect = None → postselected_items mv = items mv) ∧
    (∀ p, postselect = Some p → postselected_items mv = Some [([], p)]) ∧
    ∀ outcomes,
      concretize mv outcomes =
        outcomes (MidMeasureMP.mk wires reset postselect measurement_id).
Proof.
  intros Hlen. unfold _measure_impl. rewrite decide_False by lia.
  destruct wires as [|w wires]; [done|]. simpl.
  eexists. split; [done|]. split; [done|]. split; [done|].
  split; [by intros ->|]. split; [by intros p ->|].
  intros outcomes. unfold concretize. simpl. by destruct (outcomes _).
Qed.

Lemma measure_impl_enumerations_witness :
  ∃ mv, _measure_impl [3] true (Some 1) "a" = Measured mv ∧
        postselected_items mv = Some [([], 1)].
Proof.
  destruct (measure_impl_enumerations [3] true (Some 1) "a")
    as (mv & Hmv & _ & _ & _ & Hps & _).
  - reflexivity.
  - exists mv. split; [exact Hmv|]. exact (Hps 1 eq_refl).
Defined.

(** ** The shape of the predicates of [qml.cond] *)

Section PredicateShape.
Context `{SetIteration}.

Lemma measurements_and (a c : MeasurementValue bool) (m : MidMeasureMP) :
  m ∈ measurements (__and__ a (inl c)) ↔ m ∈ measurements a ∨ m ∈ measurements c.
Proof. apply merge_measurements_elem_of. Qed.

Lemma mcm_predicates_loop_shape (rest new_conds : list (MeasurementValue bool))
    (false_cond : MeasurementValue bool) :
  let st := foldl mcm_predicates_step (new_conds, false_cond) rest in
  (∃ added, st.1 = new_conds ++ added ∧ length added = length rest ∧
            ∀ q m, q ∈ added → m ∈ measurements q →
                   m ∈ measurements false_cond ∨ ∃ c, c ∈ rest ∧ m ∈ measurements c) ∧
  (∀ m, m ∈ measurements st.2 ↔
        m ∈ measurements false_cond ∨ ∃ c, c ∈ rest ∧ m ∈ measurements c).
Proof.
  revert new_conds false_cond. induction rest as [|c rest IH]; intros new_conds false_cond.
  { simpl. split.
    - exists []. rewrite app_nil_r. split; [done|]. split; [done|].
      intros q m Hq. by apply elem_of_nil in Hq.
    - intros m. split; [by left|]. intros [?|(c & Hc & _)]; [done|].
      by apply elem_of_nil in Hc. }
  cbn [foldl]. unfold mcm_predicates_step at 2 4.
  destruct (IH (new_conds ++ [__and__ false_cond (inl c)])
               (__and__ false_cond (inl (__invert__ c))))
    as [(added & Hadded & Hlen & Hdeps) Hlast].
  split.
  - exists (__and__ false_cond (inl c) :: added).
    split; [by rewrite Hadded, <-app_assoc|]. split; [simpl; by rewrite Hlen|].
    intros q m Hq Hm. apply elem_of_cons in Hq as [->|Hq].
    + apply measurements_and in Hm as [?|?]; [by left|].
      right. exists c. split; [by left|done].
    + destruct (Hdeps q m Hq Hm) as [Hm'|(c' & Hc' & Hm')].
      * apply measurements_and in Hm' as [?|Hm']; [by left|].
        right. exists c. split; [by left|done].
      * right. exists c'. split; [by right|done].
  - intros m. rewrite Hlast, measurements_and. simpl. split.
    + intros [[?|?]|(c' & Hc' & ?)]; [by left| |].
      * right. exists c. split; [by left|done].
      * right. exists c'. split; [by right|done].
    + intros [?|(c' & Hc' & ?)]; [by left; left|].
      apply elem_of_cons in Hc' as [->|?]; [by left; right|].
      right. by exists c'.
Qed.

(** X11: on a non-empty sequence [get_mcm_predicates] always returns,
    whatever the predicates compute: the first returned predicate is the
    first given one, unchanged; one guard follows for every further
    predicate, then the guard of the [else] branch.  No returned guard
    depends on a measurement that no given predicate depends on, and the
    [else] guard depends on all of them. *)
Theorem get_mcm_predicates_shape (c0 : MeasurementValue bool)
    (rest : list (MeasurementValue bool)) :
  ∃ guards else_guard,
    get_mcm_predicates (c0 :: rest) = Some (c0 :: guards ++ [else_guard]) ∧
    length guards = length rest ∧
    (∀ q m, q ∈ guards → m ∈ measurements q →
            ∃ p, p ∈ c0 :: rest ∧ m ∈ measurements p) ∧
    (∀ m, m ∈ measurements else_guard ↔ ∃ p, p ∈ c0 :: rest ∧ m ∈ measurements p).
Proof.
  pose proof (mcm_predicates_loop_shape rest [c0] (__invert__ c0)) as Hshape.
  unfold get_mcm_predicates.
  destruct (foldl mcm_predicates_step ([c0], __invert__ c0) rest)
    as [new_conds false_cond].
  simpl in Hshape. destruct Hshape as [(added & -> & Hlen & Hdeps) Hlast].
  exists added, false_cond. split; [done|]. split; [done|]. split.
  - intros q m Hq Hm. destruct (Hdeps q m Hq Hm) as [?|(c & ? & ?)].
    + exists c0. split; [by left|done].
    + exists c. split; [by right|done].
  - intros m. rewrite Hlast. split.
    + intros [?|(c & ? & ?)].
      * exists c0. split; [by left|done].
      * exists c. split; [by right|done].
    + intros (p & Hp & ?). apply elem_of_cons in Hp as [->|?]; [by left|].
      right. by exists p.
Qed.

End PredicateShape.

(** ** Merging into a canonical list *)

Section CanonicalMerge.
Context `{SetIteration}.

Lemma NoDup_fmap_id_inj (l : list MidMeasureMP) (x y : MidMeasureMP) :
  NoDup (MidMeasureMP.id <$> l) → x ∈ l → y ∈ l →
  MidMeasureMP.id x = MidMeasureMP.id y → x = y.
Proof.
  intros Hnd Hx Hy Hid.
  apply list_elem_of_lookup in Hx as [i Hi]. apply list_elem_of_lookup in Hy as [j Hj].
  assert (i = j) as ->; [|congruence].
  apply (NoDup_lookup _ i j (MidMeasureMP.id x) Hnd).
  - by rewrite list_lookup_fmap, Hi.
  - by rewrite list_lookup_fmap, Hj, Hid.
Qed.

(** X12: a dependency list that is sorted by token and has no token
    twice is a fixed point of merging: merging with a value whose
    dependencies are already among them, in particular with itself,
    returns the same list. *)
Theorem merge_canonical_fixed_point {T U} (a : MeasurementValue T) (b : MeasurementValue U) :
  Sorted le_by_id (measurements a) →
  NoDup (MidMeasureMP.id <$> measurements a) →
  (∀ m, m ∈ measurements b → m ∈ measurements a) →
  measurements (_merge a b) = measurements a ∧
  measurements (_merge b a) = measurements a ∧
  measurements (_merge a a) = measurements a.
Proof.
  intros Hsorted Hnd Hsub.
  assert (∀ l, (∀ m, m ∈ l ↔ m ∈ measurements a) → NoDup l → Sorted le_by_id l →
               l = measurements a) as Hunique.
  { intros l Hel Hndl Hsl. symmetry.
    apply canonical_order_unique;
      [intros x y; by apply NoDup_fmap_id_inj|done|done
      |by apply NoDup_fmap_1 in Hnd|done|intros m; by rewrite Hel]. }
  split; [|split]; apply Hunique;
    try apply merge_measurements_NoDup; try apply merge_measurements_sorted;
    intros m; rewrite merge_measurements_elem_of; pose proof (Hsub m); tauto.
Qed.

End CanonicalMerge.

Lemma merge_canonical_fixed_point_witness :
  measurements (@_merge listed_order _ _ (@_merge listed_order _ _ value_b value_a) value_a)
    = measurements (@_merge listed_order _ _ value_b value_a).
Proof.
  refine (proj1 (@merge_canonical_fixed_point listed_order _ _
                   (@_merge listed_order _ _ value_b value_a) value_a _ _ _)).
  - apply merge_measurements_sorted.
  - apply (bool_decide_unpack _). by vm_compute.
  - intros m Hm. apply merge_measurements_elem_of. by right.
Defined.

(** ** Enumeration without postselection *)

Lemma full_branch_from_no_postselect (js : list nat) (branch : list Z) :
  length branch = length js → full_branch_from [] js branch = Some branch.
Proof.
  revert branch. induction js as [|j js IH]; intros [|b branch] Hlen; simpl in *; try done.
  rewrite IH by lia. done.
Qed.

Lemma postselect_dict_no_postselect (ms : list MidMeasureMP) :
  (∀ m, m ∈ ms → MidMeasureMP.postselect m = None) → postselect_dict ms = [].
Proof.
  intros Hnone. assert (length (postselect_dict ms) = 0%nat) as Hlen.
  { rewrite postselect_dict_length. unfold num_postselected.
    induction ms as [|m ms IH]; [done|]. rewrite filter_cons.
    rewrite decide_False.
    - apply IH. intros m' ?. apply Hnone. by right.
    - rewrite (Hnone m) by (by left). by intros [? ?]. }
  by destruct (postselect_dict ms).
Qed.

(** X13: for a value with at least one dependency and no postselection
    the two enumerations coincide. *)
Theorem postselected_items_no_postselect {T} (mv : MeasurementValue T) :
  measurements mv ≠ [] →
  (∀ m, m ∈ measurements mv → MidMeasureMP.postselect m = None) →
  postselected_items mv = items mv.
Proof.
  intros Hne Hnone. unfold postselected_items, items.
  rewrite (postselect_dict_no_postselect _ Hnone). simpl.
  rewrite Nat.sub_0_r. rewrite decide_False.
  2:{ destruct (measurements mv); [done|simpl; lia]. }
  apply mapM_option_ext_Forall, Forall_forall. intros i Hi.
  apply elem_of_seq in Hi. unfold full_branch.
  rewrite full_branch_from_no_postselect; [done|].
  rewrite length_seq. apply format_branch_length; [|lia].
  destruct (measurements mv); [done|simpl; lia].
Qed.

Lemma postselected_items_no_postselect_witness :
  postselected_items value_a = items value_a.
Proof.
  apply postselected_items_no_postselect.
  - discriminate.
  - intros m Hm. apply list_elem_of_singleton in Hm as ->. reflexivity.
Defined.

(** ** Patching attributes *)

Section PatcherFacts.
Context {Obj : Type} `{Countable Obj} {V : Type}.
Implicit Types (data : list (Obj * string * V)) (backup store : gmap (Obj * string) V).

Lemma enter_loop_done data backup store :
  NoDup (Patcher.keys data) →
  (∀ k, k ∈ Patcher.keys data → is_Some (store !! k)) →
  ∃ backup' store',
    Patcher.enter_loop data backup store = Patcher.Done backup' store' ∧
    (∀ k, k ∈ Patcher.keys data → backup' !! k = store !! k) ∧
    (∀ k, k ∉ Patcher.keys data → backup' !! k = backup !! k) ∧
    (∀ k fn, (k, fn) ∈ data → store' !! k = Some fn) ∧
    (∀ k, k ∉ Patcher.keys data → store' !! k = store !! k).
Proof.
  revert backup store. induction data as [|[[obj attr_name] fn] data IH];
    intros backup store Hnd Hpresent.
  { exists backup, store. split; [done|]. repeat split; try done.
    - intros k Hk. by apply elem_of_nil in Hk.
    - intros k fn Hk. by apply elem_of_nil in Hk. }
  unfold Patcher.keys in *. simpl in *.
  apply NoDup_cons in Hnd as [Hnotin Hnd].
  destruct (Hpresent (obj, attr_name)) as [old Hold]; [by left|].
  rewrite Hold.
  destruct (IH (<[(obj, attr_name) := old]> backup) (<[(obj, attr_name) := fn]> store) Hnd)
    as (backup' & store' & -> & Hb_in & Hb_out & Hs_in & Hs_out).
  { intros k Hk. destruct (decide (k = (obj, attr_name))) as [->|Hne].
    - by rewrite lookup_insert_eq.
    - rewrite lookup_insert_ne by done. apply Hpresent. by right. }
  exists backup', store'. split; [done|]. repeat split.
  - intros k Hk. apply elem_of_cons in Hk as [->|Hk].
    + by rewrite Hb_out, lookup_insert_eq.
    + rewrite Hb_in by done. apply lookup_insert_ne. by intros <-.
  - intros k Hk. apply not_elem_of_cons in Hk as [Hne Hk].
    rewrite Hb_out by done. by apply lookup_insert_ne.
  - intros k fn' Hk. apply elem_of_cons in Hk as [Heq|Hk]; [|by apply Hs_in].
    simplify_eq. by rewrite Hs_out, lookup_insert_eq.
  - intros k Hk. apply not_elem_of_cons in Hk as [Hne Hk].
    rewrite Hs_out by done. by apply lookup_insert_ne.
Qed.

Lemma exit_loop_done data backup store :
  (∀ k, k ∈ Patcher.keys data → is_Some (backup !! k)) →
  ∃ store',
    Patcher.exit_loop data backup store = Patcher.Done backup store' ∧
    (∀ k, k ∈ Patcher.keys data → store' !! k = backup !! k) ∧
    (∀ k, k ∉ Patcher.keys data → store' !! k = store !! k).
Proof.
  revert store. induction data as [|[[obj attr_name] fn] data IH]; intros store Hpresent.
  { exists store. split; [done|]. split; [|done].
    intros k Hk. by apply elem_of_nil in Hk. }
  unfold Patcher.keys in *. simpl in *.
  destruct (Hpresent (obj, attr_name)) as [old Hold]; [by left|].
  rewrite Hold.
  destruct (IH (<[(obj, attr_name) := old]> store)) as (store' & -> & Hin & Hout).
  { intros k Hk. apply Hpresent. by right. }
  exists store'. split; [done|]. split.
  - intros k Hk. destruct (decide (k ∈ data.*1)) as [Hk'|Hk']; [by apply Hin|].
    apply elem_of_cons in Hk as [->|?]; [|done].
    by rewrite Hout, lookup_insert_eq.
  - intros k Hk. apply not_elem_of_cons in Hk as [Hne Hk].
    rewrite Hout by done. by apply lookup_insert_ne.
Qed.

(** X14: when the patched attributes are pairwise different and all
    exist, [__enter__] returns normally; afterwards every patched
    attribute holds its new value, every other attribute is untouched, and
    the backup holds the old value of every patched attribute. *)
Theorem patcher_enter data store :
  NoDup (Patcher.keys data) →
  (∀ k, k ∈ Patcher.keys data → is_Some (store !! k)) →
  ∃ backup' store',
    Patcher.__enter__ (Patcher.__init__ data) store = Patcher.Done backup' store' ∧
    (∀ k fn, (k, fn) ∈ data → store' !! k = Some fn) ∧
    (∀ k, k ∉ Patcher.keys data → store' !! k = store !! k) ∧
    (∀ k, k ∈ Patcher.keys data → backup' !! k = store !! k).
Proof.
  intros Hnd Hpresent.
  destruct (enter_loop_done data ∅ store Hnd Hpresent)
    as (backup' & store' & Henter & Hb_in & _ & Hs_in & Hs_out).
  by exists backup', store'.
Qed.

(** X15: leaving restores what entering replaced.  With pairwise
    different, existing attributes, [__exit__] after [__enter__] returns
    normally whatever happened to the attributes in between; every patched
    attribute holds again the value it had before [__enter__], every other
    attribute keeps the value it has when [__exit__] is called; if nothing
    changed in between, all attributes are as before [__enter__]. *)
Theorem patcher_round_trip data store :
  NoDup (Patcher.keys data) →
  (∀ k, k ∈ Patcher.keys data → is_Some (store !! k)) →
  ∃ backup' store_in,
    Patcher.__enter__ (Patcher.__init__ data) store = Patcher.Done backup' store_in ∧
    ∀ store_body, ∃ store_out,
      Patcher.__exit__ (Patcher.mk backup' data) store_body = Patcher.Done backup' store_out ∧
      (∀ k, k ∈ Patcher.keys data → store_out !! k = store !! k) ∧
      (∀ k, k ∉ Patcher.keys data → store_out !! k = store_body !! k) ∧
      (store_body = store_in → store_out = store).
Proof.
  intros Hnd Hpresent.
  destruct (enter_loop_done data ∅ store Hnd Hpresent)
    as (backup' & store_in & Henter & Hb_in & _ & _ & Hs_out).
  exists backup', store_in. split; [done|]. intros store_body.
  destruct (exit_loop_done data backup' store_body) as (store_out & Hexit & Hin & Hout).
  { intros k Hk. rewrite Hb_in by done. by apply Hpresent. }
  exists store_out. split; [done|]. split; [|split; [done|]].
  - intros k Hk. by rewrite Hin, Hb_in.
  - intros ->. apply map_eq. intros k.
    destruct (decide (k ∈ Patcher.keys data)) as [Hk|Hk].
    + by rewrite Hin, Hb_in.
    + by rewrite Hout, Hs_out.
Qed.

(** X16: [__enter__] does not roll back.  When an attribute is missing,
    it raises at that attribute, and the attributes patched before it keep
    their new values. *)
Theorem patcher_enter_missing data_before data_after obj attr_name fn store :
  NoDup (Patcher.keys data_before) →
  (∀ k, k ∈ Patcher.keys data_before → is_Some (store !! k)) →
  (obj, attr_name) ∉ Patcher.keys data_before →
  store !! (obj, attr_name) = None →
  ∃ backup' store',
    Patcher.__enter__
      (Patcher.__init__ (data_before ++ (obj, attr_name, fn) :: data_after)) store
      = Patcher.Raised backup' store' ∧
    (∀ k fn', (k, fn') ∈ data_before → store' !! k = Some fn') ∧
    (∀ k, k ∉ Patcher.keys data_before → store' !! k = store !! k).
Proof.
  intros Hnd Hpresent Hnotin Hmissing. unfold Patcher.__enter__. simpl.
  generalize (∅ : gmap (Obj * string) V). revert store Hnd Hpresent Hnotin Hmissing.
  induction data_before as [|[[obj' attr_name'] fn'] data_before IH];
    intros store Hnd Hpresent Hnotin Hmissing backup.
  { simpl. rewrite Hmissing. exists backup, store. split; [done|]. split; [|done].
    intros k fn' Hk. by apply elem_of_nil in Hk. }
  unfold Patcher.keys in *. simpl in *.
  apply NoDup_cons in Hnd as [Hnotin' Hnd].
  apply not_elem_of_cons in Hnotin as [Hne Hnotin].
  destruct (Hpresent (obj', attr_name')) as [old Hold]; [by left|].
  rewrite Hold.
  destruct (IH (<[(obj', attr_name') := fn']> store) Hnd) with
    (g := <[(obj', attr_name') := old]> backup)
    as (backup' & store' & -> & Hin & Hout); [|done| |].
  { intros k Hk. rewrite lookup_insert_ne by (by intros <-). apply Hpresent. by right. }
  { by rewrite lookup_insert_ne. }
  exists backup', store'. split; [done|]. split.
  - intros k fn'' Hk. apply elem_of_cons in Hk as [Heq|Hk]; [|by apply Hin].
    simplify_eq. by rewrite Hout, lookup_insert_eq.
  - intros k Hk. apply not_elem_of_cons in Hk as [Hne' Hk].
    rewrite Hout by done. by apply lookup_insert_ne.
Qed.

(** X17: the same attribute patched twice is not restored: the second
    patch backs up the value installed by the first, and [__exit__] leaves
    that value in place of the original one. *)
Theorem patcher_duplicate_not_restored obj attr_name (fn_1 fn_2 old : V) store :
  store !! (obj, attr_name) = Some old →
  ∃ backup' store_in store_out,
    Patcher.__enter__
      (Patcher.__init__ [(obj, attr_name, fn_1); (obj, attr_name, fn_2)]) store
      = Patcher.Done backup' store_in ∧
    store_in !! (obj, attr_name) = Some fn_2 ∧
    Patcher.__exit__
      (Patcher.mk backup' [(obj, attr_name, fn_1); (obj, attr_name, fn_2)]) store_in
      = Patcher.Done backup' store_out ∧
    store_out !! (obj, attr_name) = Some fn_1.
Proof.
  intros Hold. unfold Patcher.__enter__, Patcher.__exit__. simpl.
  rewrite Hold, !lookup_insert_eq.
  exists (<[(obj, attr_name) := fn_1]> (<[(obj, attr_name) := old]> ∅)),
         (<[(obj, attr_name) := fn_2]> (<[(obj, attr_name) := fn_1]> store)),
         (<[(obj, attr_name) := fn_1]>
            (<[(obj, attr_name) := fn_1]>
               (<[(obj, attr_name) := fn_2]> (<[(obj, attr_name) := fn_1]> store)))).
  by rewrite !lookup_insert_eq.
Qed.

End PatcherFacts.

(** ** [converted_call] leaves the patched attributes as it found them *)

Section ConvertedCallFacts.
Context {Obj : Type} `{Countable Obj} {V R : Type}.
Variable ag_api ag_config : Obj.
Variable TRANSFORMER module_allowlist : V.
Variable call_wrapper call_qnode ag_converted_call :
  gmap (Obj * string) V → option R * gmap (Obj * string) V.

(** X18: when the two attributes exist, the call made by
    [converted_call] sees the transformer and the conversion rules
    installed and all other attributes unchanged; when [converted_call]
    returns, normally or not, the two attributes hold again the values
    they had before, and every other attribute is as the inner call left
    it. *)
Theorem converted_call_restores (fn : callee) (args_ok : bool)
    (store : gmap (Obj * string) V) :
  let transpiler := (ag_api, "_TRANSPILER"%string) in
  let rules := (ag_config, "CONVERSION_RULES"%string) in
  is_Some (store !! transpiler) → is_Some (store !! rules) →
  ∃ store_in,
    store_in !! transpiler = Some TRANSFORMER ∧
    store_in !! rules = Some module_allowlist ∧
    (∀ k, k ≠ transpiler → k ≠ rules → store_in !! k = store !! k) ∧
    let inner :=
      match fn with
      | WrapperFn => if args_ok then call_wrapper store_in else (None, store_in)
      | QNodeFn => call_qnode store_in
      | OtherFn => ag_converted_call store_in
      end in
    let outcome :=
      converted_call ag_api ag_config TRANSFORMER module_allowlist
                     call_wrapper call_qnode ag_converted_call fn args_ok store in
    outcome.1 = inner.1 ∧
    outcome.2 !! transpiler = store !! transpiler ∧
    outcome.2 !! rules = store !! rules ∧
    (∀ k, k ≠ transpiler → k ≠ rules → outcome.2 !! k = inner.2 !! k).
Proof.
  intros transpiler rules Htranspiler Hrules.
  set (data := [(ag_api, "_TRANSPILER"%string, TRANSFORMER);
                (ag_config, "CONVERSION_RULES"%string, module_allowlist)]).
  assert (Patcher.keys data = [transpiler; rules]) as Hkeys by done.
  assert (NoDup (Patcher.keys data)) as Hnd.
  { rewrite Hkeys. apply NoDup_cons. split; [|apply NoDup_singleton].
    rewrite list_elem_of_singleton. unfold transpiler, rules. by intros [= _ ?]. }
  assert (∀ k, k ∈ Patcher.keys data → is_Some (store !! k)) as Hpresent.
  { intros k. rewrite Hkeys, elem_of_cons, list_elem_of_singleton. by intros [->| ->]. }
  destruct (enter_loop_done data ∅ store Hnd Hpresent)
    as (backup' & store_in & Henter & Hb_in & _ & Hs_in & Hs_out).
  exists store_in.
  split; [apply Hs_in; by left|]. split; [apply Hs_in; right; by left|].
  split.
  { intros k Hk1 Hk2. apply Hs_out. rewrite Hkeys, elem_of_cons, list_elem_of_singleton.
    by intros [?|?]. }
  intros inner outcome. subst outcome. unfold converted_call.
  unfold Patcher.__enter__. cbn [Patcher.patch_data Patcher.backup Patcher.__init__].
  fold data. rewrite Henter. fold inner.
  destruct inner as [result store_body].
  destruct (exit_loop_done data backup' store_body) as (store_out & Hexit & Hin & Hout).
  { intros k Hk. rewrite Hb_in by done. by apply Hpresent. }
  unfold Patcher.__exit__. cbn [Patcher.patch_data Patcher.backup]. rewrite Hexit. simpl.
  split; [done|].
  split; [rewrite Hin, Hb_in; [done| |]; rewrite Hkeys; by left|].
  split; [rewrite Hin, Hb_in; [done| |]; rewrite Hkeys; right; by left|].
  intros k Hk1 Hk2. apply Hout. rewrite Hkeys, elem_of_cons, list_elem_of_singleton.
  by intros [?|?].
Qed.

End ConvertedCallFacts.

Lemma converted_call_restores_witness :
  (converted_call 0%nat 1%nat 7 8 (λ s, (Some 0, s)) (λ s, (Some 0, s))
     (λ s, (None, <[(0%nat, "_TRANSPILER"%string) := 9]> s)) OtherFn true
     {[ (0%nat, "_TRANSPILER"%string) := 1; (1%nat, "CONVERSION_RULES"%string) := 2 ]}).2
    !! (0%nat, "_TRANSPILER"%string) = Some 1.
Proof.
  destruct (converted_call_restores 0%nat 1%nat 7 8 (λ s, (Some 0, s)) (λ s, (Some 0, s))
              (λ s, (None, <[(0%nat, "_TRANSPILER"%string) := 9]> s)) OtherFn true
              {[ (0%nat, "_TRANSPILER"%string) := 1; (1%nat, "CONVERSION_RULES"%string) := 2 ]})
    as (store_in & _ & _ & _ & _ & Hrestored & _).
  - by eexists.
  - by eexists.
  - exact Hrestored.
Defined.

Lemma patcher_enter_witness :
  ∃ backup' store',
    Patcher.__enter__ (Patcher.__init__ [(0%nat, "f"%string, 5); (1%nat, "f"%string, 6)])
                      {[ (0%nat, "f"%string) := 1; (1%nat, "f"%string) := 2 ]}
      = Patcher.Done backup' store' ∧
    store' !! (1%nat, "f"%string) = Some 6.
Proof.
  destruct (patcher_enter [(0%nat, "f"%string, 5); (1%nat, "f"%string, 6)]
              {[ (0%nat, "f"%string) := 1; (1%nat, "f"%string) := 2 ]})
    as (backup' & store' & Henter & Hnew & _).
  - apply (bool_decide_unpack _). by vm_compute.
  - intros k Hk. apply list_elem_of_In in Hk. simpl in Hk.
    destruct Hk as [<-|[<-|[]]]; by eexists.
  - exists backup', store'. split; [exact Henter|]. apply Hnew. right. by left.
Defined.

Lemma patcher_round_trip_witness :
  ∃ backup' store_in,
    Patcher.__enter__ (Patcher.__init__ [(0%nat, "f"%string, 5); (1%nat, "f"%string, 6)])
                      {[ (0%nat, "f"%string) := 1; (1%nat, "f"%string) := 2 ]}
      = Patcher.Done backup' store_in ∧
    Patcher.__exit__ (Patcher.mk backup' [(0%nat, "f"%string, 5); (1%nat, "f"%string, 6)])
                     store_in
      = Patcher.Done backup' {[ (0%nat, "f"%string) := 1; (1%nat, "f"%string) := 2 ]}.
Proof.
  destruct (patcher_round_trip [(0%nat, "f"%string, 5); (1%nat, "f"%string, 6)]
              {[ (0%nat, "f"%string) := 1; (1%nat, "f"%string) := 2 ]})
    as (backup' & store_in & Henter & Hexit).
  - apply (bool_decide_unpack _). by vm_compute.
  - intros k Hk. apply list_elem_of_In in Hk. simpl in Hk.
    destruct Hk as [<-|[<-|[]]]; by eexists.
  - exists backup', store_in. split; [exact Henter|].
    destruct (Hexit store_in) as (store_out & Hout & _ & _ & Hsame).
    by rewrite <-(Hsame eq_refl).
Defined.

Lemma patcher_enter_missing_witness :
  ∃ backup' store',
    Patcher.__enter__ (Patcher.__init__ [(0%nat, "f"%string, 5); (1%nat, "g"%string, 6)])
                      {[ (0%nat, "f"%string) := 1 ]}
      = Patcher.Raised backup' store' ∧
    store' !! (0%nat, "f"%string) = Some 5.
Proof.
  destruct (patcher_enter_missing [(0%nat, "f"%string, 5)] [] 1%nat "g"%string 6
              {[ (0%nat, "f"%string) := 1 ]})
    as (backup' & store' & Henter & Hkept & _).
  - apply (bool_decide_unpack _). by vm_compute.
  - intros k Hk. apply list_elem_of_In in Hk. simpl in Hk.
    destruct Hk as [<-|[]]. by eexists.
  - intros Hk. apply list_elem_of_In in Hk. simpl in Hk. by destruct Hk as [|[]].
  - reflexivity.
  - exists backup', store'. split; [exact Henter|]. apply Hkept. by left.
Defined.

Lemma patcher_duplicate_not_restored_witness :
  ∃ backup' store_in store_out,
    Patcher.__exit__ (Patcher.mk backup' [(0%nat, "f"%string, 5); (0%nat, "f"%string, 6)])
                     store_in
      = Patcher.Done backup' store_out ∧
    store_out !! (0%nat, "f"%string) = Some 5.
Proof.
  destruct (patcher_duplicate_not_restored 0%nat "f"%string 5 6 1
              {[ (0%nat, "f"%string) := 1 ]})
    as (backup' & store_in & store_out & _ & _ & Hexit & Hleft).
  - reflexivity.
  - exists backup', store_in, store_out. split; [exact Hexit|exact Hleft].
Defined.

(** ** The scan and binary operations *)

(** X19: when a terminal measurement carries the result of a binary
    operation on two values, the scan retains every dependency of both
    operands. *)
Theorem scan_retains_operands `{SetIteration} {T U V} (circuit : Circuit.t V)
    (a : MeasurementValue T) (b : MeasurementValue U) (base_bin : T → U → option V)
    (m : MidMeasureMP) :
  MvSingle (_transform_bin_op a base_bin (inl b)) ∈ Circuit.measurements circuit →
  m ∈ measurements a ∨ m ∈ measurements b →
  m ∈ find_post_processed_mcms circuit.
Proof.
  intros Hin Hm. apply find_post_processed_mcms_elem_of. right.
  exists (MvSingle (_transform_bin_op a base_bin (inl b))),
         (_transform_bin_op a base_bin (inl b)).
  split; [done|]. split; [by left|]. by apply merge_measurements_elem_of.
Qed.

Lemma scan_retains_operands_witness :
  record_b ∈ find_post_processed_mcms
    (Circuit.mk [] [MvSingle (@__add__ listed_order value_a (inl value_b))]).
Proof.
  apply (@scan_retains_operands listed_order Z Z Z _ value_a value_b
           (λ a b, Some (a + b))).
  - by left.
  - right. by left.
Defined.

(** ** Full enumeration and concretization of a symbolic value *)




